(** * Action registry of the video player (src/application.cpp)

    A shallow embedding of the command/action management core of
    [Application]: the lazily populated action collection, the merge with
    the persisted shortcuts, the user-defined custom commands, and the
    start-up sequence of the constructor. *)

From stdpp Require Import gmap strings list fin_maps pretty.

(** ** Qt key codes

    The values of the [Qt::Key] and [Qt::Modifier] enumerators used by the
    catalog, as Qt's namespace header defines them.  A key combination such
    as [Qt::CTRL + Qt::Key_Q] is the sum of the enumerators, as in the
    source.  No property below depends on the values. *)
Module Qt.
Definition SHIFT : Z := 0x02000000%Z.
Definition CTRL : Z := 0x04000000%Z.
Definition ALT : Z := 0x08000000%Z.

Definition Key_Escape : Z := 0x01000000%Z.
Definition Key_Backspace : Z := 0x01000003%Z.
Definition Key_Left : Z := 0x01000012%Z.
Definition Key_Up : Z := 0x01000013%Z.
Definition Key_Right : Z := 0x01000014%Z.
Definition Key_Down : Z := 0x01000015%Z.
Definition Key_PageUp : Z := 0x01000016%Z.
Definition Key_PageDown : Z := 0x01000017%Z.
Definition Key_F1 : Z := 0x01000030%Z.
Definition Key_Menu : Z := 0x01000055%Z.
Definition Key_Plus : Z := 0x2b%Z.
Definition Key_Comma : Z := 0x2c%Z.
Definition Key_Minus : Z := 0x2d%Z.
Definition Key_Period : Z := 0x2e%Z.
Definition Key_0 : Z := 0x30%Z.
Definition Key_1 : Z := 0x31%Z.
Definition Key_2 : Z := 0x32%Z.
Definition Key_3 : Z := 0x33%Z.
Definition Key_4 : Z := 0x34%Z.
Definition Key_5 : Z := 0x35%Z.
Definition Key_6 : Z := 0x36%Z.
Definition Key_7 : Z := 0x37%Z.
Definition Key_8 : Z := 0x38%Z.
Definition Key_9 : Z := 0x39%Z.
Definition Key_D : Z := 0x44%Z.
Definition Key_F : Z := 0x46%Z.
Definition Key_H : Z := 0x48%Z.
Definition Key_J : Z := 0x4a%Z.
Definition Key_L : Z := 0x4c%Z.
Definition Key_M : Z := 0x4d%Z.
Definition Key_O : Z := 0x4f%Z.
Definition Key_P : Z := 0x50%Z.
Definition Key_Q : Z := 0x51%Z.
Definition Key_R : Z := 0x52%Z.
Definition Key_S : Z := 0x53%Z.
Definition Key_X : Z := 0x58%Z.
Definition Key_Z : Z := 0x5a%Z.
Definition Key_BracketLeft : Z := 0x5b%Z.
Definition Key_BracketRight : Z := 0x5d%Z.
End Qt.

(** A key combination, as the integer a [QKeySequence] is built from. *)
Abbreviation QKeySequence := Z.

(** ** Action objects *)

(** The slots the catalog connects to [QAction::triggered]. *)
Inductive Slot : Set :=
| QApplication_quit
| Application_configureShortcuts
| Application_aboutApplication.

(** An [HAction] object.  [shortcuts] is the active binding
    ([QAction::shortcuts]); [defaultShortcuts] is the compiled-in binding
    that the collection records on the action. *)
Record HAction : Set := mkHAction {
  text : string;
  icon : option string;
  shortcuts : list QKeySequence;
  defaultShortcuts : list QKeySequence;
  triggered : list Slot
}.

(** [new HAction()]: no text, no icon, no binding, nothing connected. *)
Definition new_HAction : HAction := mkHAction "" None [] [] [].

Definition setText (t : string) (a : HAction) : HAction :=
  mkHAction t (icon a) (shortcuts a) (defaultShortcuts a) (triggered a).

Definition setIcon (i : string) (a : HAction) : HAction :=
  mkHAction (text a) (Some i) (shortcuts a) (defaultShortcuts a) (triggered a).

Definition setShortcuts (ks : list QKeySequence) (a : HAction) : HAction :=
  mkHAction (text a) (icon a) ks (defaultShortcuts a) (triggered a).

(** [connect(action, &QAction::triggered, ..., slot)] *)
Definition connect (s : Slot) (a : HAction) : HAction :=
  mkHAction (text a) (icon a) (shortcuts a) (defaultShortcuts a) (triggered a ++ [s]).

(** [tr]: the source string itself (no translation catalog is loaded). *)
Definition tr (s : string) : string := s.

(** Action objects live on a heap; an object's identity is its address.
    Objects are never freed, so the next free address is the heap's length. *)
Abbreviation ptr := nat.
Abbreviation heap := (list HAction).

(** ** The action collection and the persisted shortcuts *)
Module KActionCollection.

(** Modelled from the spec: the class [KActionCollection] (the live set of
    the Action Registry) is not part of the source file.  The live set maps
    an action id to the one action object registered under it. *)
Abbreviation t := (gmap string ptr).

(** Modelled from the spec: [KActionCollection::action] is missing; it
    resolves an id in the live set, and yields no object when the id is
    not there. *)
Definition action (name : string) (c : t) : option ptr := c !! name.

(** Modelled from the spec: [KActionCollection::addAction] is missing; it
    inserts the action into the live set under [name]; there is at most one
    action per id, the last one registered wins. *)
Definition addAction (name : string) (p : ptr) (c : t) : t := <[name := p]> c.

(** Modelled from the spec: [KActionCollection::setDefaultShortcut] is
    missing; it applies the catalog's default shortcut to the action: the
    binding becomes both the compiled-in default and the active one. *)
Definition setDefaultShortcut (k : QKeySequence) (a : HAction) : HAction :=
  mkHAction (text a) (icon a) [k] [k] (triggered a).

(** The binding the merge gives an action registered under [name]: the
    persisted override when the store has one, the default otherwise. *)
Definition effectiveShortcut (config : gmap string (list QKeySequence))
    (name : string) (a : HAction) : list QKeySequence :=
  match config !! name with
  | Some stored => stored
  | None => defaultShortcuts a
  end.

Definition applyTo (config : gmap string (list QKeySequence))
    (objs : heap) (entry : string * ptr) : heap :=
  alter (λ a, setShortcuts (effectiveShortcut config entry.1 a) a) entry.2 objs.

(** Modelled from the spec: [KActionCollection::readSettings] is missing;
    it iterates the live set and, for each action, looks up its id in the
    persisted mapping: if present the active binding becomes the stored
    value, if absent it falls back to the default. *)
Definition readSettings (config : gmap string (list QKeySequence))
    (c : t) (objs : heap) : heap :=
  foldl (applyTo config) objs (map_to_list c).

End KActionCollection.

(** ** The custom-command configuration *)

(** One group of the custom-command file: its entries, by key. *)
Abbreviation KConfigGroup := (gmap string string).

(** [readEntry(key, QString())]: the entry, or the empty string. *)
Definition readEntry (key : string) (g : KConfigGroup) : string :=
  default "" (g !! key).

(** The custom-command file as [KSharedConfig::openConfig] presents it: the
    integer entry [Counter] of the default group, and the named groups.  An
    unreadable or absent file is the empty configuration. *)
Record KConfig : Type := mkKConfig {
  Counter : option Z;
  groups : gmap string KConfigGroup
}.

(** [group(QString()).readEntry("Counter", 0)] *)
Definition readCounter (cfg : KConfig) : Z := default 0%Z (Counter cfg).

(** [groupList()]: the named groups, each once. *)
Definition groupList (cfg : KConfig) : list (string * KConfigGroup) :=
  map_to_list (groups cfg).

(** ** The compiled-in catalog *)

Record CatalogEntry : Set := entry {
  cat_id : string;
  cat_label : string;
  cat_icon : option string;
  cat_shortcut : QKeySequence;
  cat_slot : option Slot
}.

(** The blocks of [Application::setupActions], in source order. *)
Definition catalog : list CatalogEntry := [
  entry "screenshot" "Screenshot" (Some "image-x-generic") Qt.Key_S None;
  entry "file_quit" "Quit" (Some "application-exit") (Qt.CTRL + Qt.Key_Q) (Some QApplication_quit);
  entry "options_configure_keybinding" "Configure Keyboard Shortcuts" (Some "configure-shortcuts") (Qt.CTRL + Qt.SHIFT + Qt.Key_S) (Some Application_configureShortcuts);
  entry "configure" "Configure" (Some "configure") (Qt.CTRL + Qt.SHIFT + Qt.Key_Comma) None;
  entry "togglePlaylist" "Playlist" (Some "view-media-playlist") Qt.Key_P None;
  entry "openContextMenu" "Open Context Menu" (Some "application-menu") Qt.Key_Menu None;
  entry "toggleFullscreen" "Toggle Fullscreen" (Some "view-fullscreen") Qt.Key_F None;
  entry "openFile" "Open File" (Some "folder-videos") (Qt.CTRL + Qt.Key_O) None;
  entry "openUrl" "Open Url" (Some "internet-services") (Qt.CTRL + Qt.SHIFT + Qt.Key_O) None;
  entry "aboutHaruna" "About Haruna" (Some "help-about") Qt.Key_F1 (Some Application_aboutApplication);
  entry "contrastUp" "Contrast Up" (Some "contrast") Qt.Key_1 None;
  entry "contrastDown" "Contrast Down" (Some "contrast") Qt.Key_2 None;
  entry "contrastReset" "Contrast Reset" (Some "contrast") (Qt.CTRL + Qt.Key_1) None;
  entry "brightnessUp" "Brightness Up" (Some "contrast") Qt.Key_3 None;
  entry "brightnessDown" "Brightness Down" (Some "contrast") Qt.Key_4 None;
  entry "brightnessReset" "Brightness Reset" (Some "contrast") (Qt.CTRL + Qt.Key_3) None;
  entry "gammaUp" "Gamma Up" (Some "contrast") Qt.Key_5 None;
  entry "gammaDown" "Gamma Down" (Some "contrast") Qt.Key_6 None;
  entry "gammaReset" "Gamma Reset" (Some "contrast") (Qt.CTRL + Qt.Key_5) None;
  entry "saturationUp" "Saturation Up" (Some "contrast") Qt.Key_7 None;
  entry "saturationDown" "Saturation Down" (Some "contrast") Qt.Key_8 None;
  entry "saturationReset" "Saturation Reset" (Some "contrast") (Qt.CTRL + Qt.Key_7) None;
  entry "playNext" "Play Next" (Some "media-skip-forward") (Qt.SHIFT + Qt.Key_Period) None;
  entry "playPrevious" "Play Previous" (Some "media-skip-backward") (Qt.SHIFT + Qt.Key_Comma) None;
  entry "volumeUp" "Volume Up" (Some "audio-volume-high") Qt.Key_9 None;
  entry "volumeDown" "Volume Down" (Some "audio-volume-low") Qt.Key_0 None;
  entry "mute" "Mute" (Some "player-volume") Qt.Key_M None;
  entry "seekForwardSmall" "Seek Small Step Forward" (Some "media-seek-forward") Qt.Key_Right None;
  entry "seekBackwardSmall" "Seek Small Step Backward" (Some "media-seek-backward") Qt.Key_Left None;
  entry "seekForwardMedium" "Seek Medium Step Forward" (Some "media-seek-forward") (Qt.SHIFT + Qt.Key_Right) None;
  entry "seekBackwardMedium" "Seek Medium Step Backward" (Some "media-seek-backward") (Qt.SHIFT + Qt.Key_Left) None;
  entry "seekForwardBig" "Seek Big Step Forward" (Some "media-seek-forward") Qt.Key_Up None;
  entry "seekBackwardBig" "Seek Big Step Backward" (Some "media-seek-backward") Qt.Key_Down None;
  entry "seekPreviousChapter" "Seek Previous Chapter" (Some "media-seek-backward") Qt.Key_PageDown None;
  entry "seekNextChapter" "Seek Next Chapter" (Some "media-seek-forward") Qt.Key_PageUp None;
  entry "seekNextSubtitle" "Seek To Next Subtitle" (Some "media-seek-forward") (Qt.CTRL + Qt.Key_Right) None;
  entry "seekPreviousSubtitle" "Seek To Previous Subtitle" (Some "media-seek-backward") (Qt.CTRL + Qt.Key_Left) None;
  entry "frameStep" "Move one frame forward, then pause" None Qt.Key_Period None;
  entry "frameBackStep" "Move one frame backward, then pause" None Qt.Key_Comma None;
  entry "increasePlayBackSpeed" "Playback speed increase" None Qt.Key_BracketRight None;
  entry "decreasePlayBackSpeed" "Playback speed decrease" None Qt.Key_BracketLeft None;
  entry "resetPlayBackSpeed" "Playback speed reset" None Qt.Key_Backspace None;
  entry "subtitleQuicken" "Subtitle Quicken" None Qt.Key_Z None;
  entry "subtitleDelay" "Subtitle Delay" None (Qt.SHIFT + Qt.Key_Z) None;
  entry "subtitleToggle" "Subtitle Toggle" None (Qt.CTRL + Qt.Key_S) None;
  entry "audioCycleUp" "Cycle Audio Up" None (Qt.SHIFT + Qt.Key_3) None;
  entry "audioCycleDown" "Cycle Audio Down" None (Qt.SHIFT + Qt.Key_2) None;
  entry "subtitleCycleUp" "Cycle Subtitle Up" None Qt.Key_J None;
  entry "subtitleCycleDown" "Cycle Subtitle Down" None (Qt.SHIFT + Qt.Key_J) None;
  entry "zoomIn" "Zoom In" (Some "zoom-in") (Qt.ALT + Qt.Key_Plus) None;
  entry "zoomOut" "Zoom Out" (Some "zoom-out") (Qt.ALT + Qt.Key_Minus) None;
  entry "zoomReset" "Zoom Reset" (Some "zoom-original") (Qt.ALT + Qt.Key_Backspace) None;
  entry "videoPanXLeft" "Video pan x left" None (Qt.ALT + Qt.Key_Left) None;
  entry "videoPanXRight" "Video pan x right" None (Qt.ALT + Qt.Key_Right) None;
  entry "videoPanYUp" "Video pan y up" None (Qt.ALT + Qt.Key_Up) None;
  entry "videoPanYDown" "Video pan y down" None (Qt.ALT + Qt.Key_Down) None;
  entry "toggleMenuBar" "Toggle Menu Bar" None (Qt.CTRL + Qt.Key_M) None;
  entry "toggleHeader" "Toggle Header" None (Qt.CTRL + Qt.Key_H) None;
  entry "setLoop" "Set Loop" None Qt.Key_L None;
  entry "increaseSubtitleFontSize" "Increase Subtitle Font Size" None (Qt.CTRL + Qt.Key_Z) None;
  entry "decreaseSubtitleFontSize" "Decrease Subtitle Font Size" None (Qt.CTRL + Qt.Key_X) None;
  entry "subtitlePositionUp" "Move Subtitle Up" None Qt.Key_R None;
  entry "subtitlePositionDown" "Move Subtitle Down" None (Qt.SHIFT + Qt.Key_R) None;
  entry "toggleDeinterlacing" "Toggle deinterlacing" None Qt.Key_D None;
  entry "exitFullscreen" "Exit Fullscreen" None Qt.Key_Escape None
].

(** ** The application object *)
Module Application.

(** The part of [Application] the action registry works on: the action
    objects created so far, the collection [m_collection], the group
    [m_shortcuts] of persisted bindings (action id to key combinations, as
    read back from their serialized form), and the custom-command file that
    [createUserAction] and [setupUserActions] open. *)
Record t : Type := mkApp {
  objects : heap;
  m_collection : gmap string ptr;
  m_shortcuts : gmap string (list QKeySequence);
  customCommandsConfig : KConfig
}.

(** [m_collection.addAction(name, action)] for an object [action] that was
    just made by [new HAction()] and set up: the object takes the next free
    address and is registered under [name]. *)
Definition addAction (name : string) (action : HAction) (app : t) : t :=
  mkApp (objects app ++ [action])
        (KActionCollection.addAction name (length (objects app)) (m_collection app))
        (m_shortcuts app) (customCommandsConfig app).

(** [m_collection.readSettings(m_shortcuts)] *)
Definition readSettings (app : t) : t :=
  mkApp (KActionCollection.readSettings (m_shortcuts app) (m_collection app) (objects app))
        (m_collection app) (m_shortcuts app) (customCommandsConfig app).

(** The object one catalog block builds before it registers it. *)
Definition catalogAction (e : CatalogEntry) : HAction :=
  let action := new_HAction in
  let action := setText (tr (cat_label e)) action in
  let action := match cat_icon e with Some i => setIcon i action | None => action end in
  let action := match cat_slot e with Some s => connect s action | None => action end in
  KActionCollection.setDefaultShortcut (cat_shortcut e) action.

(** One [if (actionName == QStringLiteral(...)) { ... }] block. *)
Definition setupBlock (actionName : string) (app : t) (e : CatalogEntry) : t :=
  if decide (actionName = cat_id e)
  then addAction actionName (catalogAction e) app
  else app.

(** The catalog pass of [setupActions]: every block in turn. *)
Definition catalogPass (actionName : string) (app : t) : t :=
  foldl (setupBlock actionName) app catalog.

Definition setupActions (actionName : string) (app : t) : t :=
  readSettings (catalogPass actionName app).

(** [Application::action]: the object registered under [name], or no object
    ([nullptr]), and the application afterwards. *)
Definition action (name : string) (app : t) : option ptr * t :=
  match KActionCollection.action name (m_collection app) with
  | Some resultAction => (Some resultAction, app)
  | None =>
      let app' := setupActions name app in
      (KActionCollection.action name (m_collection app'), app')
  end.

(** The local [name] of [createUserAction]: [QString("Command_%1").arg(counter)]. *)
Definition userActionName (app : t) : string :=
  let counter := readCounter (customCommandsConfig app) in
  "Command_" +:+ pretty counter.

Definition createUserAction (text : string) (app : t) : t :=
  let name := userActionName app in
  let action := setText text new_HAction in
  readSettings (addAction name action app).

(** The body of the loop of [setupUserActions] for one group. *)
Definition setupUserGroup (app : t) (g : string * KConfigGroup) : t :=
  let command := readEntry "Command" g.2 in
  if decide (readEntry "Type" g.2 = "shortcut")
  then addAction g.1 (setText command new_HAction) app
  else app.

Definition setupUserActions (app : t) : t :=
  readSettings (foldl setupUserGroup app (groupList (customCommandsConfig app))).

(** The application before [setupUserActions] runs in the constructor: no
    action object, an empty collection. *)
Definition init (shortcuts : gmap string (list QKeySequence)) (cc : KConfig) : t :=
  mkApp [] ∅ shortcuts cc.

End Application.

(** ** Start-up *)

Module QDBusConnection.

(** Modelled from the spec: the class [QDBusConnection] is not part of the
    source file.  The session bus as the process sees it: whether the
    connection is available, and what the process has registered on it. *)
Record t : Set := mk {
  isConnected : bool;
  serviceNames : list string;
  objectPaths : list string
}.

(** Modelled from the spec: [QDBusConnection::registerService] is missing;
    it yields a boolean success flag, and fails when the bus connection is
    unavailable. *)
Definition registerService (serviceName : string) (bus : t) : bool * t :=
  if isConnected bus
  then (true, mk true (serviceName :: serviceNames bus) (objectPaths bus))
  else (false, bus).

(** Modelled from the spec: [QDBusConnection::registerObject] is missing;
    it publishes one object at a path, with the same success flag. *)
Definition registerObject (path : string) (bus : t) : bool * t :=
  if isConnected bus
  then (true, mk true (serviceNames bus) (path :: objectPaths bus))
  else (false, bus).

End QDBusConnection.

(** What is connected to [QThread::finished]. *)
Inductive Cleanup : Set := Worker_deleteLater | QThread_deleteLater.

(** The thread [setupWorkerThread] creates. *)
Record QThread : Set := mkQThread {
  workerMoved : bool;
  finished : list Cleanup;
  started : bool
}.

(** What the constructor reads from outside the process. *)
Record Environment : Type := mkEnvironment {
  shortcutsGroup : gmap string (list QKeySequence);
  customCommandsFile : KConfig;
  sessionBus : QDBusConnection.t;
  positionalArguments : list string;
  qmlLoads : bool
}.

(** The process the constructor leaves behind. *)
Record Process : Type := mkProcess {
  application : Application.t;
  bus : QDBusConnection.t;
  thread : QThread;
  m_args : gmap nat string;
  rootObject : bool
}.

(** How [Application::run] ends: in the event loop, serving the user, or
    with the exit code the [objectCreated] handler asks for. *)
Inductive Outcome : Set := Interactive | Exited (code : Z).

Definition mspris2Name : string := "org.mpris.MediaPlayer2.haruna".

Definition setupWorkerThread : QThread :=
  let thread := mkQThread false [] false in
  let thread := mkQThread true (finished thread) (started thread) in
  let thread := mkQThread (workerMoved thread) (finished thread ++ [Worker_deleteLater])
                          (started thread) in
  let thread := mkQThread (workerMoved thread) (finished thread ++ [QThread_deleteLater])
                          (started thread) in
  mkQThread (workerMoved thread) (finished thread) true.

(** The loop of [setupCommandLineParser]: [addArgument(i, arguments.at(i))]. *)
Definition setupCommandLineParser (arguments : list string) : gmap nat string :=
  foldl (λ (m_args : gmap nat string) (i : nat),
           match arguments !! i with
           | Some value => <[i := value]> m_args
           | None => m_args
           end)
        ∅ (seq 0 (length arguments)).

(** [Application::Application]: the user actions are loaded, the two
    registrations on the session bus are made and their results dropped,
    and the rest of the start-up follows.  The calls that only configure the
    GUI toolkit (style, locale, about data, QML type registration) keep no
    state here. *)
Definition Application_new (env : Environment) : Process :=
  let app := Application.setupUserActions
               (Application.init (shortcutsGroup env) (customCommandsFile env)) in
  let bus := (QDBusConnection.registerService mspris2Name (sessionBus env)).2 in
  let bus := (QDBusConnection.registerObject "/org/mpris/MediaPlayer2" bus).2 in
  let thread := setupWorkerThread in
  let m_args := setupCommandLineParser (positionalArguments env) in
  mkProcess app bus thread m_args (qmlLoads env).

(** [Application::run]: [onObjectCreated] exits with -1 when the root object
    could not be created; otherwise the event loop runs. *)
Definition run (p : Process) : Outcome :=
  if rootObject p then Interactive else Exited (-1).

(** ** Specification vocabulary *)

Import Application.

(** ** Well-formed applications

    Every registered address is the address of an object, and no object is
    registered under two ids. *)
Definition wf (app : Application.t) : Prop :=
  (∀ (n : string) (p : ptr), m_collection app !! n = Some p → p < length (objects app)) ∧
  (∀ (n1 n2 : string) (p : ptr),
     m_collection app !! n1 = Some p → m_collection app !! n2 = Some p → n1 = n2).

(** The same, over the entries of the collection. *)
Definition wf_entries (app : Application.t) : Prop :=
  Forall (λ e : string * ptr, e.2 < length (objects app)) (map_to_list (m_collection app)) ∧
  NoDup (map_to_list (m_collection app)).*2.

(** Every live action carries the binding the merge prescribes for its id. *)
Definition merged (app : Application.t) : Prop :=
  ∀ (n : string) (p : ptr), m_collection app !! n = Some p →
    ∃ a, objects app !! p = Some a ∧
         shortcuts a = match m_shortcuts app !! n with
                       | Some stored => stored
                       | None => defaultShortcuts a
                       end.

(** The calls that end with re-reading the persisted shortcuts. *)
Inductive resolution_pass (app : Application.t) : Application.t → Prop :=
| pass_setupActions (actionName : string) :
    resolution_pass app (setupActions actionName app)
| pass_createUserAction (txt : string) :
    resolution_pass app (createUserAction txt app)
| pass_setupUserActions :
    resolution_pass app (setupUserActions app).

(** The applications the constructor and the calls of the registry lead to. *)
Inductive reachable : Application.t → Prop :=
| reach_init shortcuts cc : reachable (init shortcuts cc)
| reach_pass app app' : reachable app → resolution_pass app app' → reachable app'
| reach_action name app : reachable app → reachable (action name app).2.

(** A run of [createUserAction] calls, one per text: the ids the calls
    generate, in order, and the application afterwards. *)
Fixpoint createUserActions (texts : list string) (app : Application.t)
    : list string * Application.t :=
  match texts with
  | [] => ([], app)
  | txt :: texts' =>
      let name := userActionName app in
      let (names, app') := createUserActions texts' (createUserAction txt app) in
      (name :: names, app')
  end.

(** ** Sample applications *)

(** An application with one custom command whose active binding differs
    from the one the store holds for it. *)
Definition stale_app : Application.t :=
  mkApp [mkHAction "mpv command" None [Qt.Key_P] [] []]
        ({["Command_0" := 0]}) ({["Command_0" := [Qt.Key_S]]}) (mkKConfig None ∅).

(** A custom-command file with one group tagged ["shortcut"] and one that
    is not. *)
Definition two_groups : KConfig :=
  mkKConfig (Some 1%Z)
    (<["Command_0" := <["Command" := "cycle pause"]> (<["Type" := "shortcut"]> ∅)]>
       (<["Notes" := <["Command" := "ignored"]> (<["Type" := "startup"]> ∅)]> ∅)).

(** ** Further vocabulary *)

(** One call of the registry: a resolution pass, or a resolution. *)
Inductive step (app : Application.t) : Application.t → Prop :=
| step_pass (app' : Application.t) : resolution_pass app app' → step app app'
| step_action (name : string) : step app (action name app).2.

(** The action object registered under an id, if any. *)
Definition liveAction (name : string) (app : Application.t) : option HAction :=
  m_collection app !! name ≫= λ p : ptr, objects app !! p.

(** What no call of the registry changes on an object: everything but the
    active binding. *)
Definition static (a : HAction) : string * option string * list QKeySequence * list Slot :=
  (text a, icon a, defaultShortcuts a, triggered a).

(** Every object of the first application is still there in the second, at
    the same address and with the same static part. *)
Definition keeps_objects (app app' : Application.t) : Prop :=
  ∀ (p : ptr) (a : HAction), objects app !! p = Some a →
    ∃ a', objects app' !! p = Some a' ∧ static a' = static a.

(** The binding the merge gives to an action object registered under an id. *)
Definition mergeBinding (app : Application.t) (name : string) (a : HAction) : HAction :=
  setShortcuts (KActionCollection.effectiveShortcut (m_shortcuts app) name a) a.

(** ** Paths *)

(** [QString::contains] with a string argument and the default case
    sensitivity: whether the argument occurs in the string. *)
Fixpoint QString_contains (str s : string) : bool :=
  String.prefix str s
  || match s with
     | EmptyString => false
     | String _ s' => QString_contains str s'
     end.

Definition isYoutubePlaylist (path : string) : bool :=
  QString_contains "youtube.com/playlist?list" path.

(** * Properties *)

Example createUserAction_Counter_5 :
  Application.userActionName (Application.init ∅ (mkKConfig (Some 5%Z) ∅)) = "Command_5".
Proof. reflexivity. Qed.

Example action_screenshot :
  (Application.action "screenshot" (Application.init ∅ (mkKConfig None ∅))).1 = Some 0%nat.
Proof. vm_compute. reflexivity. Qed.

Example action_unknown :
  (Application.action "noSuchAction" (Application.init ∅ (mkKConfig None ∅))).1 = None.
Proof. vm_compute. reflexivity. Qed.


(** ** The merge with the persisted shortcuts, on the heap *)
Section merge.
Context (config : gmap string (list QKeySequence)).
Implicit Types (objs : heap) (l : list (string * ptr)).

Lemma applyTo_length objs e :
  length (KActionCollection.applyTo config objs e) = length objs.
Proof. unfold KActionCollection.applyTo. by rewrite length_alter. Qed.

Lemma foldl_applyTo_length l objs :
  length (foldl (KActionCollection.applyTo config) objs l) = length objs.
Proof.
  revert objs. induction l as [|e l IH]; intros objs; simpl; [done|].
  by rewrite IH, applyTo_length.
Qed.

(** An object no entry points to is left alone. *)
Lemma foldl_applyTo_other l objs (p : ptr) :
  p ∉ l.*2 → foldl (KActionCollection.applyTo config) objs l !! p = objs !! p.
Proof.
  revert objs. induction l as [|[n q] l IH]; intros objs Hp; simpl; [done|].
  rewrite fmap_cons in Hp. apply not_elem_of_cons in Hp as [Hne Hp].
  rewrite IH by done. unfold KActionCollection.applyTo. simpl.
  by rewrite list_lookup_alter_ne.
Qed.

(** An object exactly one entry points to gets that entry's binding. *)
Lemma foldl_applyTo_at l objs (n : string) (p : ptr) (a : HAction) :
  NoDup l.*2 → (n, p) ∈ l → objs !! p = Some a →
  foldl (KActionCollection.applyTo config) objs l !! p
  = Some (setShortcuts (KActionCollection.effectiveShortcut config n a) a).
Proof.
  revert objs. induction l as [|[m q] l IH]; intros objs Hnd Hin Ha; simpl.
  { by apply elem_of_nil in Hin. }
  rewrite fmap_cons in Hnd. apply NoDup_cons in Hnd as [Hq Hnd].
  apply elem_of_cons in Hin as [[= <- <-]|Hin].
  - rewrite foldl_applyTo_other by done.
    unfold KActionCollection.applyTo. simpl.
    by rewrite list_lookup_alter_eq, Ha.
  - assert (p ≠ q) as Hne.
    { intros ->. apply Hq. apply (list_elem_of_fmap_2 snd) in Hin. done. }
    apply IH; [done..|].
    unfold KActionCollection.applyTo. simpl.
    by rewrite list_lookup_alter_ne.
Qed.

(** The merge only ever writes the active binding of an object. *)
Lemma foldl_applyTo_frame l objs (p : ptr) (a' : HAction) :
  foldl (KActionCollection.applyTo config) objs l !! p = Some a' →
  ∃ a, objs !! p = Some a ∧ text a' = text a ∧ icon a' = icon a
       ∧ defaultShortcuts a' = defaultShortcuts a ∧ triggered a' = triggered a.
Proof.
  revert objs a'. induction l as [|[m q] l IH]; intros objs a' H; simpl in H.
  { by exists a'. }
  apply IH in H as (a & Ha & Ht & Hi & Hd & Hs).
  unfold KActionCollection.applyTo in Ha. simpl in Ha.
  destruct (decide (q = p)) as [->|Hne].
  - rewrite list_lookup_alter_eq in Ha.
    destruct (objs !! p) as [b|] eqn:Hb; simplify_eq/=.
    exists b. by rewrite Ht, Hi, Hd, Hs.
  - rewrite list_lookup_alter_ne in Ha by done. by exists a.
Qed.

End merge.

Lemma NoDup_fmap_elem_inj {A B} (f : A → B) (l : list A) (x y : A) :
  NoDup (f <$> l) → x ∈ l → y ∈ l → f x = f y → x = y.
Proof.
  induction l as [|z l IH]; intros Hnd Hx Hy Hf.
  { by apply elem_of_nil in Hx. }
  rewrite fmap_cons in Hnd. apply NoDup_cons in Hnd as [Hz Hnd].
  apply elem_of_cons in Hx as [->|Hx]; apply elem_of_cons in Hy as [->|Hy]; auto.
  - exfalso. apply Hz. rewrite Hf. by apply list_elem_of_fmap_2.
  - exfalso. apply Hz. rewrite <- Hf. by apply list_elem_of_fmap_2.
Qed.

Lemma wf_entries_iff (app : Application.t) : wf app ↔ wf_entries app.
Proof.
  unfold wf, wf_entries. split.
  - intros [Hv Hi]. split.
    + apply Forall_forall. intros [n p] Hin. apply elem_of_map_to_list in Hin.
      simpl. by eapply Hv.
    + apply NoDup_fmap_2_strong; [|apply NoDup_map_to_list].
      intros [n1 p1] [n2 p2] H1 H2 Heq. simpl in Heq. subst p2.
      apply elem_of_map_to_list in H1. apply elem_of_map_to_list in H2.
      f_equal. by eapply Hi.
  - intros [Hv Hnd]. split.
    + intros n p Hl. apply elem_of_map_to_list in Hl.
      rewrite Forall_forall in Hv. by apply Hv in Hl.
    + intros n1 n2 p H1 H2.
      apply elem_of_map_to_list in H1. apply elem_of_map_to_list in H2.
      by pose proof (NoDup_fmap_elem_inj snd _ _ _ Hnd H1 H2 eq_refl) as [= ->].
Qed.

Lemma wf_init shortcuts cc : wf (init shortcuts cc).
Proof. split; intros *; simpl; by rewrite lookup_empty. Qed.

Lemma wf_addAction name a app : wf app → wf (addAction name a app).
Proof.
  intros [Hv Hi]. split; simpl; unfold KActionCollection.addAction.
  - intros n p. rewrite length_app. simpl. rewrite lookup_insert.
    case_decide; [intros [= <-]; lia|]. intros Hl%Hv. lia.
  - intros n1 n2 p. rewrite !lookup_insert.
    repeat case_decide; subst; try done.
    + intros [= <-] Hl%Hv. lia.
    + intros Hl%Hv [= <-]. lia.
    + apply Hi.
Qed.

Lemma wf_readSettings app : wf app → wf (readSettings app).
Proof.
  intros [Hv Hi]. split; simpl; [|done].
  intros n p H. unfold KActionCollection.readSettings.
  rewrite foldl_applyTo_length. by eapply Hv.
Qed.

(** After the merge every live action carries its prescribed binding. *)
Lemma readSettings_merged app : wf app → merged (readSettings app).
Proof.
  intros Hwf n p Hl. simpl in *.
  pose proof Hwf as [Hv _]. apply wf_entries_iff in Hwf as [_ Hnd].
  destruct (lookup_lt_is_Some_2 (objects app) p) as [a Ha]; [by eapply Hv|].
  exists (setShortcuts (KActionCollection.effectiveShortcut (m_shortcuts app) n a) a).
  split; [|done].
  apply foldl_applyTo_at; [done| |done]. by apply elem_of_map_to_list.
Qed.

(** The merge leaves everything but the active bindings alone. *)
Lemma readSettings_frame app (p : ptr) (a' : HAction) :
  objects (readSettings app) !! p = Some a' →
  ∃ a, objects app !! p = Some a ∧ text a' = text a ∧ icon a' = icon a
       ∧ defaultShortcuts a' = defaultShortcuts a ∧ triggered a' = triggered a.
Proof. apply foldl_applyTo_frame. Qed.

Lemma readSettings_collection app : m_collection (readSettings app) = m_collection app.
Proof. reflexivity. Qed.

Lemma readSettings_shortcuts app : m_shortcuts (readSettings app) = m_shortcuts app.
Proof. reflexivity. Qed.

Lemma readSettings_config app :
  customCommandsConfig (readSettings app) = customCommandsConfig app.
Proof. reflexivity. Qed.

Lemma addAction_collection name a app :
  m_collection (addAction name a app) = <[name := length (objects app)]> (m_collection app).
Proof. reflexivity. Qed.

Lemma readSettings_length app : length (objects (readSettings app)) = length (objects app).
Proof. apply foldl_applyTo_length. Qed.

(** ** The catalog pass *)

(** The catalog ids are pairwise distinct. *)
Lemma catalog_ids_NoDup : NoDup (cat_id <$> catalog).
Proof. apply (bool_decide_unpack _). vm_compute. exact I. Qed.

(** From here on the catalog is only used through its lemmas. *)
#[local] Opaque catalog.

Section pass.
Context (name : string).
Implicit Types (l : list CatalogEntry) (app : Application.t).

(** No block fires for an id that no block tests for. *)
Lemma blocks_miss l app :
  name ∉ cat_id <$> l → foldl (setupBlock name) app l = app.
Proof.
  revert app. induction l as [|e l IH]; intros app Hn; simpl; [done|].
  rewrite fmap_cons in Hn. apply not_elem_of_cons in Hn as [Hne Hn].
  unfold setupBlock at 2. rewrite decide_False by done. by apply IH.
Qed.

(** With distinct ids, exactly one block fires for an id of the list. *)
Lemma blocks_hit l app :
  NoDup (cat_id <$> l) → name ∈ cat_id <$> l →
  ∃ e, e ∈ l ∧ cat_id e = name ∧
       foldl (setupBlock name) app l = addAction name (catalogAction e) app.
Proof.
  revert app. induction l as [|e l IH]; intros app Hnd Hin; simpl.
  { by apply elem_of_nil in Hin. }
  rewrite fmap_cons in Hnd, Hin. apply NoDup_cons in Hnd as [He Hnd].
  unfold setupBlock at 2. destruct (decide (name = cat_id e)) as [Heq|Hne].
  - exists e. split; [by left|]. split; [done|].
    apply blocks_miss. by rewrite Heq.
  - apply elem_of_cons in Hin as [?|Hin]; [done|].
    destruct (IH app Hnd Hin) as (e' & He' & Hid & Heq).
    exists e'. split; [by right|]. done.
Qed.

End pass.

Lemma catalogPass_miss name app :
  name ∉ cat_id <$> catalog → catalogPass name app = app.
Proof. intros H. unfold catalogPass. by apply blocks_miss. Qed.

Lemma catalogPass_hit name app :
  name ∈ cat_id <$> catalog →
  ∃ e, e ∈ catalog ∧ cat_id e = name ∧
       catalogPass name app = addAction name (catalogAction e) app.
Proof.
  intros H. unfold catalogPass.
  apply blocks_hit; [apply catalog_ids_NoDup|exact H].
Qed.

Lemma wf_catalogPass name app : wf app → wf (catalogPass name app).
Proof.
  intros Hwf. destruct (decide (name ∈ cat_id <$> catalog)) as [Hin|Hn].
  - destruct (catalogPass_hit name app Hin) as (e & _ & _ & ->).
    by apply wf_addAction.
  - by rewrite catalogPass_miss.
Qed.

Lemma wf_setupActions name app : wf app → wf (setupActions name app).
Proof. intros. by apply wf_readSettings, wf_catalogPass. Qed.

Lemma wf_action name app : wf app → wf (action name app).2.
Proof.
  intros Hwf. unfold action, KActionCollection.action.
  destruct (m_collection app !! name); cbn [snd]; [done|]. by apply wf_setupActions.
Qed.

Lemma wf_createUserAction text app : wf app → wf (createUserAction text app).
Proof. intros. by apply wf_readSettings, wf_addAction. Qed.

(** What [Application::action] does when the id is not live. *)
Lemma action_miss name app :
  m_collection app !! name = None →
  action name app = (m_collection (catalogPass name app) !! name, setupActions name app).
Proof.
  intros H. unfold action, KActionCollection.action. rewrite H.
  unfold setupActions. by rewrite readSettings_collection.
Qed.

Lemma action_live name app (p : ptr) :
  m_collection app !! name = Some p → action name app = (Some p, app).
Proof. intros H. unfold action, KActionCollection.action. by rewrite H. Qed.

(** ** Resolution *)

(** C1: resolving an id twice in a row yields the same object both times.
    When the id is live the registered object is returned and nothing is
    changed; when the first call creates the object, the second call returns
    that very object, again without changing anything. *)
Theorem action_twice_same_object (name : string) (app : Application.t) :
  (action name (action name app).2).1 = (action name app).1
  ∧ (∀ p : ptr, m_collection app !! name = Some p → action name app = (Some p, app))
  ∧ (∀ p : ptr, m_collection app !! name = None → (action name app).1 = Some p →
       length (objects app) ≤ p
       ∧ action name (action name app).2 = (Some p, (action name app).2)).
Proof.
  split_and!.
  - destruct (m_collection app !! name) as [p|] eqn:Hl.
    { rewrite (action_live _ _ p Hl). cbn [fst snd]. by rewrite (action_live _ _ p Hl). }
    rewrite (action_miss _ _ Hl). cbn [fst snd].
    destruct (decide (name ∈ cat_id <$> catalog)) as [Hin|Hn].
    + destruct (catalogPass_hit name app Hin) as (e & _ & _ & Hp).
      unfold setupActions. rewrite Hp, addAction_collection, lookup_insert_eq.
      erewrite action_live; [done|].
      by rewrite readSettings_collection, addAction_collection, lookup_insert_eq.
    + unfold setupActions. rewrite (catalogPass_miss _ _ Hn), Hl.
      rewrite action_miss by done. cbn [fst].
      by rewrite (catalogPass_miss _ _ Hn).
  - intros p Hl. by apply action_live.
  - intros p Hl. rewrite (action_miss _ _ Hl). cbn [fst snd]. intros Hp.
    split.
    + destruct (decide (name ∈ cat_id <$> catalog)) as [Hin|Hn].
      * destruct (catalogPass_hit name app Hin) as (e & _ & _ & Heq).
        rewrite Heq, addAction_collection, lookup_insert_eq in Hp.
        injection Hp as <-. done.
      * rewrite (catalogPass_miss _ _ Hn) in Hp. congruence.
    + apply action_live. unfold setupActions. by rewrite readSettings_collection.
Qed.

(** C3: an id that is neither live nor in the catalog resolves to no
    object. *)
Theorem action_unknown_absent (name : string) (app : Application.t) :
  m_collection app !! name = None →
  name ∉ cat_id <$> catalog →
  (action name app).1 = None.
Proof.
  intros Hl Hn. rewrite (action_miss _ _ Hl). cbn [fst].
  by rewrite (catalogPass_miss _ _ Hn).
Qed.

(** C7: a resolution that creates a new action (the id is not live, the
    catalog has it) registers the new object and then re-applies the
    persisted shortcuts to the whole collection: the actions that were live
    before are still live, and every live action carries the binding the
    store prescribes for its id. *)
Theorem action_create_merges_all (name : string) (app : Application.t) :
  wf app →
  m_collection app !! name = None →
  name ∈ cat_id <$> catalog →
  ∃ e, e ∈ catalog ∧ cat_id e = name
    ∧ action name app
      = (Some (length (objects app)), readSettings (addAction name (catalogAction e) app))
    ∧ (∀ (n : string) (q : ptr),
         m_collection app !! n = Some q → m_collection (action name app).2 !! n = Some q)
    ∧ merged (action name app).2.
Proof.
  intros Hwf Hl Hin.
  destruct (catalogPass_hit name app Hin) as (e & He & Hid & Hp).
  assert (action name app
          = (Some (length (objects app)), readSettings (addAction name (catalogAction e) app)))
    as Heq.
  { rewrite (action_miss _ _ Hl). unfold setupActions.
    by rewrite Hp, addAction_collection, lookup_insert_eq. }
  exists e. split_and!; [done..| |]; rewrite Heq; cbn [snd].
  - intros n q Hn. rewrite readSettings_collection, addAction_collection.
    rewrite lookup_insert_ne; [done|]. intros <-. congruence.
  - by apply readSettings_merged, wf_addAction.
Qed.

(** C10: a resolution that fails (the id is neither live nor in the
    catalog) inserts nothing and keeps the live set, but it still runs the
    merge over every live action; there are applications that such a failed
    lookup changes. *)
Theorem action_unknown_still_merges :
  (∀ (name : string) (app : Application.t),
     m_collection app !! name = None →
     name ∉ cat_id <$> catalog →
     (action name app).2 = readSettings app
     ∧ m_collection (action name app).2 = m_collection app
     ∧ length (objects (action name app).2) = length (objects app)
     ∧ (wf app → merged (action name app).2))
  ∧ (∃ (name : string) (app : Application.t),
       wf app ∧ m_collection app !! name = None ∧ (name ∉ cat_id <$> catalog)
       ∧ (action name app).1 = None ∧ (action name app).2 ≠ app).
Proof.
  split.
  - intros name app Hl Hn.
    assert ((action name app).2 = readSettings app) as Heq.
    { rewrite (action_miss _ _ Hl). cbn [snd]. unfold setupActions.
      by rewrite (catalogPass_miss _ _ Hn). }
    rewrite Heq. split_and!; [done|done|apply readSettings_length|].
    apply readSettings_merged.
  - exists "noSuchAction", stale_app.
    split_and!.
    + apply wf_entries_iff. apply (bool_decide_unpack _). vm_compute. exact I.
    + vm_compute. reflexivity.
    + apply (bool_decide_unpack _). vm_compute. exact I.
    + vm_compute. reflexivity.
    + intros H. apply (f_equal objects) in H. vm_compute in H. discriminate H.
Qed.

(** ** The merge after every resolution pass *)

Section user_groups.
Implicit Types (l : list (string * KConfigGroup)) (app : Application.t).

Lemma wf_setupUserGroups l app : wf app → wf (foldl setupUserGroup app l).
Proof.
  revert app. induction l as [|g l IH]; intros app Hwf; simpl; [done|].
  apply IH. unfold setupUserGroup. case_decide; [|done]. by apply wf_addAction.
Qed.

End user_groups.

Lemma wf_setupUserActions app : wf app → wf (setupUserActions app).
Proof. intros. by apply wf_readSettings, wf_setupUserGroups. Qed.

Lemma setupUserGroups_shortcuts (l : list (string * KConfigGroup)) app :
  m_shortcuts (foldl setupUserGroup app l) = m_shortcuts app.
Proof.
  revert app. induction l as [|g l IH]; intros app; simpl; [done|].
  rewrite IH. unfold setupUserGroup. by case_decide.
Qed.

Lemma catalogPass_shortcuts name app :
  m_shortcuts (catalogPass name app) = m_shortcuts app.
Proof.
  destruct (decide (name ∈ cat_id <$> catalog)) as [Hin|Hn].
  - by destruct (catalogPass_hit name app Hin) as (e & _ & _ & ->).
  - by rewrite catalogPass_miss.
Qed.

(** A resolution pass reads the persisted shortcuts and never writes them. *)
Lemma resolution_pass_shortcuts app app' :
  resolution_pass app app' → m_shortcuts app' = m_shortcuts app.
Proof.
  intros [nm|t|].
  - unfold setupActions. by rewrite readSettings_shortcuts, catalogPass_shortcuts.
  - done.
  - unfold setupUserActions. by rewrite readSettings_shortcuts, setupUserGroups_shortcuts.
Qed.

Lemma resolution_pass_wf app app' : wf app → resolution_pass app app' → wf app'.
Proof.
  intros Hwf [n|t|];
    [by apply wf_setupActions|by apply wf_createUserAction|by apply wf_setupUserActions].
Qed.

Lemma reachable_wf app : reachable app → wf app.
Proof.
  induction 1 as [s c|app app' _ IH Hp|name app _ IH].
  - apply wf_init.
  - exact (resolution_pass_wf _ _ IH Hp).
  - by apply wf_action.
Qed.

(** C2: after a resolution pass, a live action whose id is in the persisted
    store has the stored binding as its active one, and a live action whose
    id is not in the store has its default binding. *)
Theorem resolution_pass_merged (app app' : Application.t) :
  wf app →
  resolution_pass app app' →
  ∀ (n : string) (p : ptr), m_collection app' !! n = Some p →
    ∃ a, objects app' !! p = Some a
      ∧ (∀ stored, m_shortcuts app !! n = Some stored → shortcuts a = stored)
      ∧ (m_shortcuts app !! n = None → shortcuts a = defaultShortcuts a).
Proof.
  intros Hwf Hp. rewrite <- (resolution_pass_shortcuts _ _ Hp).
  assert (merged app') as Hm.
  { destruct Hp as [nm|t|]; apply readSettings_merged.
    - by apply wf_catalogPass.
    - by apply wf_addAction.
    - by apply wf_setupUserGroups. }
  intros n p Hl. destruct (Hm n p Hl) as (a & Ha & Hs).
  exists a. split; [done|]. split.
  - intros stored Hst. by rewrite Hst in Hs.
  - intros Hst. by rewrite Hst in Hs.
Qed.

(** ** Custom commands *)

(** The object registered by [addAction] survives the merge, up to its
    active binding. *)
Lemma readSettings_addAction_new name a0 app :
  ∃ a, objects (readSettings (addAction name a0 app)) !! length (objects app) = Some a
       ∧ text a = text a0 ∧ icon a = icon a0
       ∧ defaultShortcuts a = defaultShortcuts a0 ∧ triggered a = triggered a0.
Proof.
  destruct (lookup_lt_is_Some_2 (objects (readSettings (addAction name a0 app)))
              (length (objects app))) as [a Ha].
  { rewrite readSettings_length. simpl. rewrite length_app. simpl. lia. }
  exists a. split; [done|].
  apply readSettings_frame in Ha as (b & Hb & H). simpl in Hb.
  rewrite list_lookup_middle in Hb by done. by injection Hb as <-.
Qed.

(** What one [createUserAction] does to the application. *)
Lemma createUserAction_spec (txt : string) (app : Application.t) :
  (∃ a, m_collection (createUserAction txt app) !! userActionName app
        = Some (length (objects app))
        ∧ objects (createUserAction txt app) !! length (objects app) = Some a
        ∧ text a = txt ∧ icon a = None ∧ defaultShortcuts a = [])
  ∧ (∀ n : string, n ≠ userActionName app →
       m_collection (createUserAction txt app) !! n = m_collection app !! n)
  ∧ length (objects (createUserAction txt app)) = S (length (objects app))
  ∧ customCommandsConfig (createUserAction txt app) = customCommandsConfig app.
Proof.
  unfold createUserAction. split_and!.
  - destruct (readSettings_addAction_new (userActionName app) (setText txt new_HAction) app)
      as (a & Ha & Ht & Hi & Hd & _).
    exists a. rewrite readSettings_collection, addAction_collection, lookup_insert_eq.
    done.
  - intros n Hn. rewrite readSettings_collection, addAction_collection.
    by rewrite lookup_insert_ne.
  - rewrite readSettings_length. simpl. rewrite length_app. simpl. lia.
  - done.
Qed.

(** C4: [createUserAction] registers a new action under the id
    ["Command_" + c], where [c] is the persisted [Counter] (0 when the entry
    is absent), with the given text, and leaves the custom-command file, and
    with it the [Counter], as it was.  With [Counter = 5] the id is
    ["Command_5"]. *)
Theorem createUserAction_id (txt : string) (app : Application.t) :
  let c := default 0%Z (Counter (customCommandsConfig app)) in
  let name := "Command_" +:+ pretty c in
  let app' := createUserAction txt app in
  (∃ a, m_collection app' !! name = Some (length (objects app))
        ∧ objects app' !! length (objects app) = Some a
        ∧ text a = txt ∧ icon a = None ∧ defaultShortcuts a = [])
  ∧ (∀ n : string, n ≠ name → m_collection app' !! n = m_collection app !! n)
  ∧ length (objects app') = S (length (objects app))
  ∧ customCommandsConfig app' = customCommandsConfig app
  ∧ (Counter (customCommandsConfig app) = Some 5%Z → name = "Command_5").
Proof.
  intros c name app'. subst app'.
  destruct (createUserAction_spec txt app) as (Hnew & Hold & Hlen & Hcfg).
  change (userActionName app) with name in Hnew, Hold.
  split_and!; [done..|].
  intros H5. subst name c. by rewrite H5.
Qed.

Lemma createUserActions_cons txt texts app :
  createUserActions (txt :: texts) app
  = (userActionName app :: (createUserActions texts (createUserAction txt app)).1,
     (createUserActions texts (createUserAction txt app)).2).
Proof. simpl. by destruct (createUserActions texts (createUserAction txt app)). Qed.

(** C5, as amended: [createUserAction] never writes the custom-command file,
    so over any run of creations the persisted [Counter] keeps its value; every
    creation of the run gets the id ["Command_" + c] for that one value [c]
    (the [Counter] is equal to, hence not below, every suffix the run used);
    and the live set holds, under that id, the object created last. *)
Theorem createUserActions_counter_fixed (texts : list string) (app : Application.t) :
  let c := readCounter (customCommandsConfig app) in
  let created := createUserActions texts app in
  customCommandsConfig created.2 = customCommandsConfig app
  ∧ length created.1 = length texts
  ∧ Forall (λ name, name = "Command_" +:+ pretty c) created.1
  ∧ length (objects created.2) = length (objects app) + length texts
  ∧ (texts ≠ [] →
     m_collection created.2 !! ("Command_" +:+ pretty c)
     = Some (length (objects app) + length texts - 1)).
Proof.
  revert app. induction texts as [|txt texts IH]; intros app; cbn zeta.
  { simpl. split_and!; [done|done|constructor|lia|done]. }
  specialize (IH (createUserAction txt app)). cbn zeta in IH.
  destruct (createUserAction_spec txt app) as (Hnew & _ & Hlen & Hcfg).
  rewrite createUserActions_cons. cbn [fst snd].
  rewrite Hcfg, Hlen in IH. destruct IH as (IH1 & IH2 & IH3 & IH4 & IH5).
  split_and!.
  - done.
  - simpl. by rewrite IH2.
  - by constructor.
  - simpl. lia.
  - intros _. destruct texts as [|t texts].
    + destruct Hnew as (a & Hl & _).
      replace (length (objects app) + length [txt] - 1) with (length (objects app))
        by (simpl; lia).
      exact Hl.
    + rewrite IH5 by done. f_equal. simpl. lia.
Qed.

(** C5, as stated, fails: two creations in a row get the same id, the
    second replaces the first in the live set, and the [Counter] stays. *)
Lemma createUserActions_share_id :
  let app := init ∅ (mkKConfig (Some 5%Z) ∅) in
  let created := createUserActions ["seek 5"; "seek -5"] app in
  created.1 = ["Command_5"; "Command_5"]
  ∧ ¬ NoDup created.1
  ∧ size (m_collection created.2) = 1
  ∧ Counter (customCommandsConfig created.2) = Some 5%Z.
Proof.
  cbn zeta. split_and!.
  - vm_compute. reflexivity.
  - apply (bool_decide_unpack _). vm_compute. exact I.
  - vm_compute. reflexivity.
  - reflexivity.
Qed.

Section user_groups_spec.
Implicit Types (l : list (string * KConfigGroup)) (app : Application.t).

(** The loop of [setupUserActions] over groups with distinct names: the
    tagged groups, in order, get the next addresses. *)
Lemma setupUserGroups_spec l app :
  NoDup l.*1 →
  let tagged := filter (λ g : string * KConfigGroup, readEntry "Type" g.2 = "shortcut") l in
  let app' := foldl setupUserGroup app l in
  objects app'
  = objects app
    ++ ((λ g : string * KConfigGroup, setText (readEntry "Command" g.2) new_HAction) <$> tagged)
  ∧ (∀ (i : nat) g, tagged !! i = Some g →
       m_collection app' !! g.1 = Some (length (objects app) + i))
  ∧ (∀ n : string, n ∉ tagged.*1 → m_collection app' !! n = m_collection app !! n).
Proof.
  revert app. induction l as [|g l IH]; intros app Hnd; cbn zeta.
  { simpl. split_and!; [by rewrite app_nil_r|done|done]. }
  rewrite fmap_cons in Hnd. apply NoDup_cons in Hnd as [Hg Hnd].
  simpl foldl.
  destruct (decide (readEntry "Type" g.2 = "shortcut")) as [Ht|Ht].
  - replace (setupUserGroup app g)
      with (addAction g.1 (setText (readEntry "Command" g.2) new_HAction) app)
      by (unfold setupUserGroup; by rewrite decide_True).
    rewrite filter_cons_True by done.
    destruct (IH (addAction g.1 (setText (readEntry "Command" g.2) new_HAction) app) Hnd)
      as (IHo & IHn & IHf).
    assert (g.1 ∉ (filter (λ g : string * KConfigGroup,
                             readEntry "Type" g.2 = "shortcut") l).*1) as Hg'.
    { intros (x & Hx1 & Hx2)%list_elem_of_fmap. apply list_elem_of_filter in Hx2 as [_ Hx2].
      apply Hg. rewrite Hx1. by apply list_elem_of_fmap_2. }
    split_and!.
    + rewrite IHo. simpl. by rewrite <- app_assoc.
    + intros [|i] g' Hi; simpl in Hi.
      * injection Hi as <-. rewrite IHf by done.
        rewrite addAction_collection, lookup_insert_eq. f_equal. lia.
      * rewrite (IHn i g' Hi). simpl. rewrite length_app. simpl. f_equal. lia.
    + intros n Hn. rewrite fmap_cons in Hn. apply not_elem_of_cons in Hn as [Hne Hn].
      rewrite IHf by done. rewrite addAction_collection. by rewrite lookup_insert_ne.
  - replace (setupUserGroup app g) with app
      by (unfold setupUserGroup; by rewrite decide_False).
    rewrite filter_cons_False by done. by apply IH.
Qed.

End user_groups_spec.

(** C6: the bulk load registers one new action per group tagged
    ["shortcut"], under the group's name and with the group's [Command] as
    its text (no icon, no default binding), and nothing for any other group:
    with [N] tagged groups exactly [N] objects are created, and a collection
    that was empty, as it is at start-up, then holds exactly [N] actions. *)
Theorem setupUserActions_loads (app : Application.t) :
  let cfg := customCommandsConfig app in
  let tagged :=
    filter (λ g : string * KConfigGroup, readEntry "Type" g.2 = "shortcut") (groupList cfg) in
  let app' := setupUserActions app in
  NoDup tagged.*1
  ∧ length (objects app') = length (objects app) + length tagged
  ∧ (∀ (g : string) (grp : KConfigGroup),
       groups cfg !! g = Some grp → readEntry "Type" grp = "shortcut" →
       ∃ (i : nat) (a : HAction),
         tagged !! i = Some (g, grp)
         ∧ m_collection app' !! g = Some (length (objects app) + i)
         ∧ objects app' !! (length (objects app) + i) = Some a
         ∧ text a = readEntry "Command" grp ∧ icon a = None ∧ defaultShortcuts a = [])
  ∧ (∀ n : string,
       (∀ grp, groups cfg !! n = Some grp → readEntry "Type" grp ≠ "shortcut") →
       m_collection app' !! n = m_collection app !! n)
  ∧ (m_collection app = ∅ → size (m_collection app') = length tagged).
Proof.
  intros cfg tagged app'.
  assert (NoDup (groupList cfg).*1) as Hnd by apply NoDup_fst_map_to_list.
  destruct (setupUserGroups_spec (groupList cfg) app Hnd) as (Ho & Hn & Hf).
  cbn zeta in Ho, Hn, Hf. fold tagged in Ho, Hn, Hf.
  assert (NoDup tagged.*1) as Hndt.
  { subst tagged. revert Hnd. generalize (groupList cfg). intros l.
    induction l as [|x l IHl]; intros Hl; [constructor|].
    rewrite fmap_cons in Hl. apply NoDup_cons in Hl as [Hx Hl].
    destruct (decide (readEntry "Type" x.2 = "shortcut")).
    - rewrite filter_cons_True by done. rewrite fmap_cons. apply NoDup_cons.
      split; [|by apply IHl].
      intros (y & Hy1 & Hy2)%list_elem_of_fmap. apply list_elem_of_filter in Hy2 as [_ Hy2].
      apply Hx. rewrite Hy1. by apply list_elem_of_fmap_2.
    - rewrite filter_cons_False by done. by apply IHl. }
  assert (∀ n, n ∈ tagged.*1 ↔
               ∃ grp, groups cfg !! n = Some grp ∧ readEntry "Type" grp = "shortcut") as Htag.
  { intros n. split.
    - intros ([g grp] & -> & Hin)%list_elem_of_fmap.
      apply list_elem_of_filter in Hin as [Ht Hin]. apply elem_of_map_to_list in Hin.
      by exists grp.
    - intros (grp & Hl & Ht). apply (list_elem_of_fmap_2' fst) with (x := (n, grp)); [|done].
      apply list_elem_of_filter. split; [done|]. by apply elem_of_map_to_list. }
  subst app'. unfold setupUserActions. fold cfg.
  split_and!.
  - done.
  - rewrite readSettings_length, Ho, length_app, length_fmap. done.
  - intros g grp Hl Ht.
    assert ((g, grp) ∈ tagged) as Hin.
    { apply list_elem_of_filter. split; [done|]. by apply elem_of_map_to_list. }
    apply list_elem_of_lookup in Hin as [i Hi].
    destruct (lookup_lt_is_Some_2
                (objects (readSettings (foldl setupUserGroup app (groupList cfg))))
                (length (objects app) + i)) as [a Ha].
    { rewrite readSettings_length, Ho, length_app, length_fmap.
      apply lookup_lt_Some in Hi. lia. }
    exists i, a. rewrite readSettings_collection. split_and!; [done|by apply (Hn i (g, grp))|done|..];
      apply readSettings_frame in Ha as (b & Hb & Htx & Hic & Hd & _);
      rewrite Ho, lookup_app_r, Nat.add_comm, Nat.add_sub, list_lookup_fmap, Hi in Hb by lia;
      injection Hb as <-; by rewrite ?Htx, ?Hic, ?Hd.
  - intros n Hno. rewrite readSettings_collection. apply Hf.
    intros (grp & Hl & Ht)%Htag. by apply (Hno grp).
  - intros Hempty. rewrite readSettings_collection.
    rewrite <- size_dom.
    assert (dom (m_collection (foldl setupUserGroup app (groupList cfg)))
            = list_to_set tagged.*1) as ->.
    { apply set_eq. intros n. rewrite elem_of_dom, elem_of_list_to_set. split.
      - intros Hs. destruct (decide (n ∈ tagged.*1)) as [|Hni]; [done|].
        rewrite (Hf n Hni), Hempty, lookup_empty in Hs. by destruct Hs.
      - intros ([g grp] & -> & Hin)%list_elem_of_fmap.
        apply list_elem_of_lookup in Hin as [i Hi]. rewrite (Hn i _ Hi). done. }
    rewrite size_list_to_set by done. by rewrite length_fmap.
Qed.

(** ** Start-up *)

(** The two clean-up slots are connected to [QThread::finished] in this
    order, and the thread is started. *)
Lemma setupWorkerThread_connections :
  finished setupWorkerThread = [Worker_deleteLater; QThread_deleteLater]
  ∧ started setupWorkerThread = true.
Proof. split; reflexivity. Qed.

(** C9: when the bus connection is unavailable the registration call
    yields [false], nothing is registered, and the constructor goes on as it
    does with any other bus: same actions, same worker thread, same
    arguments, same outcome of [run]; with a loadable user interface the
    process reaches the event loop. *)
Theorem registration_failure_is_silent (env : Environment) :
  QDBusConnection.isConnected (sessionBus env) = false →
  (QDBusConnection.registerService mspris2Name (sessionBus env)).1 = false
  ∧ bus (Application_new env) = sessionBus env
  ∧ (∀ bus' : QDBusConnection.t,
       let env' := mkEnvironment (shortcutsGroup env) (customCommandsFile env) bus'
                                 (positionalArguments env) (qmlLoads env) in
       application (Application_new env) = application (Application_new env')
       ∧ thread (Application_new env) = thread (Application_new env')
       ∧ m_args (Application_new env) = m_args (Application_new env')
       ∧ run (Application_new env) = run (Application_new env'))
  ∧ (qmlLoads env = true → run (Application_new env) = Interactive).
Proof.
  intros Hbus. split_and!.
  - unfold QDBusConnection.registerService. by rewrite Hbus.
  - unfold Application_new. cbn [bus].
    unfold QDBusConnection.registerService. rewrite Hbus. cbn [snd].
    unfold QDBusConnection.registerObject. by rewrite Hbus.
  - intros bus'. cbn zeta. split_and!; reflexivity.
  - intros Hqml. unfold run, Application_new. cbn [rootObject]. by rewrite Hqml.
Qed.

(** ** The statements at concrete applications *)

Lemma action_twice_same_object_witness :
  action "screenshot" (action "screenshot" (init ∅ (mkKConfig None ∅))).2
  = (Some 0, (action "screenshot" (init ∅ (mkKConfig None ∅))).2).
Proof.
  refine (proj2 (proj2 (proj2 (action_twice_same_object "screenshot"
                                 (init ∅ (mkKConfig None ∅)))) 0 _ _)).
  - reflexivity.
  - vm_compute. reflexivity.
Defined.

Lemma action_unknown_absent_witness :
  (action "noSuchAction" (init ∅ (mkKConfig None ∅))).1 = None.
Proof.
  apply action_unknown_absent.
  - reflexivity.
  - apply (bool_decide_unpack _). vm_compute. exact I.
Defined.

Lemma stale_app_wf : wf stale_app.
Proof. apply wf_entries_iff. apply (bool_decide_unpack _). vm_compute. exact I. Defined.

Lemma action_create_merges_all_witness :
  action "mute" stale_app
  = (Some 1, readSettings (addAction "mute"
                             (catalogAction (entry "mute" "Mute" (Some "player-volume")
                                                   Qt.Key_M None))
                             stale_app))
  ∧ merged (action "mute" stale_app).2.
Proof.
  destruct (action_create_merges_all "mute" stale_app) as (e & _ & _ & _ & _ & Hm).
  - exact stale_app_wf.
  - reflexivity.
  - apply (bool_decide_unpack _). vm_compute. exact I.
  - split; [vm_compute; reflexivity|exact Hm].
Defined.

Lemma action_unknown_still_merges_witness :
  (action "noSuchAction" stale_app).2 = readSettings stale_app
  ∧ merged (action "noSuchAction" stale_app).2.
Proof.
  destruct (proj1 action_unknown_still_merges "noSuchAction" stale_app)
    as (Heq & _ & _ & Hm).
  - reflexivity.
  - apply (bool_decide_unpack _). vm_compute. exact I.
  - split; [exact Heq|exact (Hm stale_app_wf)].
Defined.

Lemma resolution_pass_merged_witness :
  ∃ a, objects (setupActions "mute" stale_app) !! 0 = Some a ∧ shortcuts a = [Qt.Key_S].
Proof.
  destruct (resolution_pass_merged stale_app (setupActions "mute" stale_app)
              stale_app_wf (pass_setupActions _ "mute") "Command_0" 0)
    as (a & Ha & Hs & _).
  - vm_compute. reflexivity.
  - exists a. split; [exact Ha|]. apply Hs. reflexivity.
Defined.

Lemma createUserAction_id_witness :
  "Command_" +:+ pretty 5%Z = "Command_5".
Proof.
  pose proof (createUserAction_id "seek 5" (init ∅ (mkKConfig (Some 5%Z) ∅))) as H.
  cbn zeta in H. destruct H as (_ & _ & _ & _ & H). exact (H eq_refl).
Defined.

Lemma createUserActions_counter_fixed_witness :
  m_collection (createUserActions ["seek 5"; "seek -5"] (init ∅ (mkKConfig (Some 5%Z) ∅))).2
    !! "Command_5" = Some 1.
Proof.
  pose proof (createUserActions_counter_fixed ["seek 5"; "seek -5"]
                (init ∅ (mkKConfig (Some 5%Z) ∅))) as H.
  cbn zeta in H. destruct H as (_ & _ & _ & _ & H). apply H. discriminate.
Defined.

Lemma setupUserActions_loads_witness :
  size (m_collection (setupUserActions (init ∅ two_groups))) = 1.
Proof.
  pose proof (setupUserActions_loads (init ∅ two_groups)) as H.
  cbn zeta in H. destruct H as (_ & _ & _ & _ & H). exact (H eq_refl).
Defined.

Lemma registration_failure_is_silent_witness :
  run (Application_new
         (mkEnvironment ∅ two_groups (QDBusConnection.mk false [] []) ["video.mkv"] true))
  = Interactive.
Proof.
  destruct (registration_failure_is_silent
              (mkEnvironment ∅ two_groups (QDBusConnection.mk false [] []) ["video.mkv"] true))
    as (_ & _ & _ & H).
  - reflexivity.
  - exact (H eq_refl).
Defined.

(** * Further properties of the registry *)

(** ** The action registered under an id *)

Lemma liveAction_readSettings (n : string) app :
  wf app → liveAction n (readSettings app) = mergeBinding app n <$> liveAction n app.
Proof.
  intros Hwf. unfold liveAction. rewrite readSettings_collection.
  destruct (m_collection app !! n) as [p|] eqn:Hl; [|done].
  pose proof Hwf as [Hv _]. apply wf_entries_iff in Hwf as [_ Hnd].
  destruct (lookup_lt_is_Some_2 (objects app) p) as [a Ha]; [by eapply Hv|].
  cbn [mbind option_bind]. rewrite Ha. cbn [fmap option_fmap option_map].
  apply foldl_applyTo_at; [done| |done]. by apply elem_of_map_to_list.
Qed.

Lemma liveAction_addAction_eq (n : string) a app :
  liveAction n (addAction n a app) = Some a.
Proof.
  unfold liveAction. rewrite addAction_collection, lookup_insert_eq.
  cbn [mbind option_bind]. simpl. by rewrite list_lookup_middle.
Qed.

(** An application on which the merge has nothing to do. *)
Lemma readSettings_fixpoint app : wf app → merged app → readSettings app = app.
Proof.
  intros Hwf Hm. destruct app as [objs coll store cfg].
  unfold readSettings. cbn [objects m_collection m_shortcuts customCommandsConfig].
  f_equal. apply list_eq. intros p. unfold KActionCollection.readSettings.
  destruct (decide (p ∈ (map_to_list coll).*2)) as [Hin|Hn].
  - apply list_elem_of_fmap in Hin as ([n q] & -> & Hin).
    pose proof Hin as Hl%elem_of_map_to_list.
    destruct (Hm n q Hl) as (a & Ha & Hs).
    cbn [objects m_collection m_shortcuts snd] in *.
    apply wf_entries_iff in Hwf as [_ Hnd]. cbn [m_collection] in Hnd.
    rewrite (foldl_applyTo_at store _ objs n q a Hnd Hin Ha), Ha. f_equal.
    unfold KActionCollection.effectiveShortcut. rewrite <- Hs. by destruct a.
  - by apply foldl_applyTo_other.
Qed.

Lemma resolution_pass_merged_state app app' :
  wf app → resolution_pass app app' → merged app'.
Proof.
  intros Hwf [nm|t|]; apply readSettings_merged.
  - by apply wf_catalogPass.
  - by apply wf_addAction.
  - by apply wf_setupUserGroups.
Qed.

Lemma action_merged name app : wf app → merged app → merged (action name app).2.
Proof.
  intros Hwf Hm. unfold action, KActionCollection.action.
  destruct (m_collection app !! name); cbn [snd]; [done|].
  by apply readSettings_merged, wf_catalogPass.
Qed.

Lemma reachable_merged app : reachable app → merged app.
Proof.
  induction 1 as [s c|app app' Hr IH Hp|name app Hr IH].
  - intros n p Hl. simpl in Hl. by rewrite lookup_empty in Hl.
  - eapply resolution_pass_merged_state; [|done]. by apply reachable_wf.
  - apply action_merged; [|done]. by apply reachable_wf.
Qed.

(** X1: whatever the registry has been asked since the constructor, every
    registered id points to an object, no object is registered under two ids,
    and every live action carries the stored binding for its id, or its
    default when the store has none. *)
Theorem reachable_invariant (app : Application.t) :
  reachable app → wf app ∧ merged app.
Proof. intros Hr. split; [by apply reachable_wf|by apply reachable_merged]. Qed.

(** X2: the merge is idempotent: re-reading the persisted shortcuts a second
    time changes nothing. *)
Theorem readSettings_idempotent (app : Application.t) :
  wf app → readSettings (readSettings app) = readSettings app.
Proof.
  intros Hwf. apply readSettings_fixpoint.
  - by apply wf_readSettings.
  - by apply readSettings_merged.
Qed.

(** X3: in an application the registry itself has built, a resolution that
    fails changes nothing at all. *)
Theorem action_unknown_noop (name : string) (app : Application.t) :
  reachable app →
  m_collection app !! name = None →
  name ∉ cat_id <$> catalog →
  action name app = (None, app).
Proof.
  intros Hr Hl Hn. rewrite (action_miss _ _ Hl). unfold setupActions.
  rewrite (catalogPass_miss _ _ Hn), Hl. f_equal.
  apply readSettings_fixpoint; [by apply reachable_wf|by apply reachable_merged].
Qed.

(** ** What a resolution returns *)

Lemma catalogPass_entry (e : CatalogEntry) app :
  e ∈ catalog → catalogPass (cat_id e) app = addAction (cat_id e) (catalogAction e) app.
Proof.
  intros He.
  destruct (catalogPass_hit (cat_id e) app) as (e' & He' & Hid & Hp).
  { by apply list_elem_of_fmap_2. }
  assert (e = e') as <-; [|exact Hp].
  exact (NoDup_fmap_elem_inj cat_id _ _ _ catalog_ids_NoDup He He' (eq_sym Hid)).
Qed.

(** X4: the first resolution of a catalog id creates the action the catalog
    describes: its text, icon, default binding and connection are the
    entry's, and its active binding is the stored one for the id, or the
    entry's default when the store has none. *)
Theorem action_creates_catalog_entry (e : CatalogEntry) (app : Application.t) :
  wf app →
  e ∈ catalog →
  m_collection app !! cat_id e = None →
  (action (cat_id e) app).1 = Some (length (objects app))
  ∧ ∃ a, liveAction (cat_id e) (action (cat_id e) app).2 = Some a
      ∧ text a = cat_label e
      ∧ icon a = cat_icon e
      ∧ defaultShortcuts a = [cat_shortcut e]
      ∧ triggered a = match cat_slot e with Some s => [s] | None => [] end
      ∧ shortcuts a = default [cat_shortcut e] (m_shortcuts app !! cat_id e).
Proof.
  intros Hwf He Hl. rewrite (action_miss _ _ Hl). cbn [fst snd].
  unfold setupActions. rewrite (catalogPass_entry e app He).
  rewrite addAction_collection, lookup_insert_eq. split; [done|].
  rewrite liveAction_readSettings by by apply wf_addAction.
  rewrite liveAction_addAction_eq. cbn [fmap option_fmap option_map].
  eexists. split; [done|].
  unfold mergeBinding, KActionCollection.effectiveShortcut, catalogAction, tr.
  cbn [m_shortcuts addAction].
  destruct (cat_icon e), (cat_slot e), (m_shortcuts app !! cat_id e); done.
Qed.

(** X5: a resolution yields an object exactly when the id is live or the
    catalog has it. *)
Theorem action_is_Some_iff (name : string) (app : Application.t) :
  is_Some (action name app).1
  ↔ is_Some (m_collection app !! name) ∨ name ∈ cat_id <$> catalog.
Proof.
  destruct (m_collection app !! name) as [p|] eqn:Hl.
  { rewrite (action_live _ _ p Hl). cbn [fst]. split; eauto. }
  rewrite (action_miss _ _ Hl). cbn [fst].
  destruct (decide (name ∈ cat_id <$> catalog)) as [Hin|Hn].
  - destruct (catalogPass_hit name app Hin) as (e & _ & _ & ->).
    rewrite addAction_collection, lookup_insert_eq. split; eauto.
  - rewrite (catalogPass_miss _ _ Hn), Hl. split; [by intros [? ?]|].
    intros [[? ?]|?]; done.
Qed.

(** X6: a resolution creates exactly one object when the id is not live and
    the catalog has it, and none otherwise; the live set grows by that one id
    or stays as it is. *)
Theorem action_allocation (name : string) (app : Application.t) :
  (m_collection app !! name = None ∧ name ∈ cat_id <$> catalog →
     length (objects (action name app).2) = S (length (objects app))
     ∧ m_collection (action name app).2
       = <[name := length (objects app)]> (m_collection app))
  ∧ (¬ (m_collection app !! name = None ∧ name ∈ cat_id <$> catalog) →
     length (objects (action name app).2) = length (objects app)
     ∧ m_collection (action name app).2 = m_collection app).
Proof.
  split.
  - intros [Hl Hin]. rewrite (action_miss _ _ Hl). cbn [snd]. unfold setupActions.
    destruct (catalogPass_hit name app Hin) as (e & _ & _ & ->).
    rewrite readSettings_length, readSettings_collection, addAction_collection.
    split; [|done]. simpl. rewrite length_app. simpl. lia.
  - intros Hno. destruct (m_collection app !! name) as [p|] eqn:Hl.
    { by rewrite (action_live _ _ p Hl). }
    rewrite (action_miss _ _ Hl). cbn [snd]. unfold setupActions.
    rewrite catalogPass_miss by (intros Hin; by apply Hno).
    by rewrite readSettings_length, readSettings_collection.
Qed.

(** X7: the address a resolution returns is registered under the requested
    id and is the address of an object. *)
Theorem action_returns_live_object (name : string) (app : Application.t) (p : ptr) :
  wf app →
  (action name app).1 = Some p →
  m_collection (action name app).2 !! name = Some p
  ∧ is_Some (objects (action name app).2 !! p).
Proof.
  intros Hwf Hp.
  assert (m_collection (action name app).2 !! name = Some p) as Hl.
  { destruct (m_collection app !! name) as [q|] eqn:Hq.
    - rewrite (action_live _ _ q Hq) in *. cbn [fst snd] in *. congruence.
    - rewrite (action_miss _ _ Hq) in *. cbn [fst snd] in *.
      unfold setupActions. by rewrite readSettings_collection. }
  split; [done|]. apply lookup_lt_is_Some_2.
  by apply (proj1 (wf_action name app Hwf) name p).
Qed.

(** ** What no call of the registry does *)

Lemma addAction_live (n name : string) a app :
  is_Some (m_collection app !! n) → is_Some (m_collection (addAction name a app) !! n).
Proof. rewrite addAction_collection, lookup_insert. case_decide; eauto. Qed.

Lemma catalogPass_live (n name : string) app :
  is_Some (m_collection app !! n) → is_Some (m_collection (catalogPass name app) !! n).
Proof.
  intros H. destruct (decide (name ∈ cat_id <$> catalog)) as [Hin|Hn].
  - destruct (catalogPass_hit name app Hin) as (e & _ & _ & ->). by apply addAction_live.
  - by rewrite catalogPass_miss.
Qed.

Lemma setupUserGroups_live (l : list (string * KConfigGroup)) (n : string) app :
  is_Some (m_collection app !! n) → is_Some (m_collection (foldl setupUserGroup app l) !! n).
Proof.
  revert app. induction l as [|g l IH]; intros app H; simpl; [done|].
  apply IH. unfold setupUserGroup. case_decide; [|done]. by apply addAction_live.
Qed.

Lemma catalogPass_config name app :
  customCommandsConfig (catalogPass name app) = customCommandsConfig app.
Proof.
  destruct (decide (name ∈ cat_id <$> catalog)) as [Hin|Hn].
  - by destruct (catalogPass_hit name app Hin) as (e & _ & _ & ->).
  - by rewrite catalogPass_miss.
Qed.

Lemma setupUserGroups_config (l : list (string * KConfigGroup)) app :
  customCommandsConfig (foldl setupUserGroup app l) = customCommandsConfig app.
Proof.
  revert app. induction l as [|g l IH]; intros app; simpl; [done|].
  rewrite IH. unfold setupUserGroup. by case_decide.
Qed.

Lemma setupActions_step_facts (n name : string) app :
  (is_Some (m_collection app !! n) → is_Some (m_collection (setupActions name app) !! n))
  ∧ m_shortcuts (setupActions name app) = m_shortcuts app
  ∧ customCommandsConfig (setupActions name app) = customCommandsConfig app.
Proof.
  unfold setupActions.
  rewrite readSettings_collection, readSettings_shortcuts, readSettings_config.
  rewrite catalogPass_shortcuts, catalogPass_config. split_and!; [|done..].
  apply catalogPass_live.
Qed.

Lemma step_facts (n : string) app app' :
  step app app' →
  (is_Some (m_collection app !! n) → is_Some (m_collection app' !! n))
  ∧ m_shortcuts app' = m_shortcuts app
  ∧ customCommandsConfig app' = customCommandsConfig app.
Proof.
  intros [app'' [nm|t|]|name].
  - apply setupActions_step_facts.
  - unfold createUserAction.
    rewrite readSettings_collection, readSettings_shortcuts, readSettings_config.
    split_and!; [|done..]. apply addAction_live.
  - unfold setupUserActions.
    rewrite readSettings_collection, readSettings_shortcuts, readSettings_config.
    rewrite setupUserGroups_shortcuts, setupUserGroups_config.
    split_and!; [|done..]. apply setupUserGroups_live.
  - unfold action, KActionCollection.action.
    destruct (m_collection app !! name); cbn [snd]; [done|].
    apply setupActions_step_facts.
Qed.

(** X8: no call of the registry ever removes an id from the live set. *)
Theorem live_set_only_grows (app app' : Application.t) :
  rtc step app app' → dom (m_collection app) ⊆ dom (m_collection app').
Proof.
  induction 1 as [app|app app1 app2 Hs _ IH]; [done|].
  etrans; [|exact IH]. intros n. rewrite !elem_of_dom.
  apply (step_facts n _ _ Hs).
Qed.

(** X9: no call of the registry ever writes the persisted shortcuts or the
    custom-command file. *)
Theorem stores_are_read_only (app app' : Application.t) :
  rtc step app app' →
  m_shortcuts app' = m_shortcuts app
  ∧ customCommandsConfig app' = customCommandsConfig app.
Proof.
  induction 1 as [app|app app1 app2 Hs _ [IH1 IH2]]; [done|].
  destruct (step_facts "" _ _ Hs) as (_ & H1 & H2).
  by rewrite IH1, IH2, H1, H2.
Qed.

Lemma keeps_objects_trans app1 app2 app3 :
  keeps_objects app1 app2 → keeps_objects app2 app3 → keeps_objects app1 app3.
Proof.
  intros H12 H23 p a Ha. destruct (H12 p a Ha) as (a2 & Ha2 & Hs2).
  destruct (H23 p a2 Ha2) as (a3 & Ha3 & Hs3). exists a3. split; [done|congruence].
Qed.

Lemma keeps_objects_addAction name a app : keeps_objects app (addAction name a app).
Proof.
  intros p b Hb. exists b. split; [|done]. simpl. by apply lookup_app_l_Some.
Qed.

Lemma keeps_objects_readSettings app : keeps_objects app (readSettings app).
Proof.
  intros p a Ha.
  destruct (lookup_lt_is_Some_2 (objects (readSettings app)) p) as [a' Ha'].
  { rewrite readSettings_length. by eapply lookup_lt_Some. }
  exists a'. split; [done|].
  apply readSettings_frame in Ha' as (b & Hb & Ht & Hi & Hd & Hc).
  unfold static. rewrite Ha in Hb. injection Hb as <-. by rewrite Ht, Hi, Hd, Hc.
Qed.

Lemma keeps_objects_catalogPass name app : keeps_objects app (catalogPass name app).
Proof.
  destruct (decide (name ∈ cat_id <$> catalog)) as [Hin|Hn].
  - destruct (catalogPass_hit name app Hin) as (e & _ & _ & ->).
    apply keeps_objects_addAction.
  - rewrite catalogPass_miss by done. intros p a Ha. by exists a.
Qed.

Lemma keeps_objects_setupUserGroups (l : list (string * KConfigGroup)) app :
  keeps_objects app (foldl setupUserGroup app l).
Proof.
  revert app. induction l as [|g l IH]; intros app; simpl.
  { intros p a Ha. by exists a. }
  eapply keeps_objects_trans; [|apply IH].
  unfold setupUserGroup. case_decide; [apply keeps_objects_addAction|].
  intros p a Ha. by exists a.
Qed.

Lemma keeps_objects_step app app' : step app app' → keeps_objects app app'.
Proof.
  assert (∀ name, keeps_objects app (setupActions name app)) as Hsetup.
  { intros name. eapply keeps_objects_trans;
      [apply keeps_objects_catalogPass|apply keeps_objects_readSettings]. }
  intros [app'' [nm|t|]|name].
  - apply Hsetup.
  - eapply keeps_objects_trans;
      [apply keeps_objects_addAction|apply keeps_objects_readSettings].
  - eapply keeps_objects_trans;
      [apply keeps_objects_setupUserGroups|apply keeps_objects_readSettings].
  - unfold action, KActionCollection.action.
    destruct (m_collection app !! name); cbn [snd]; [|apply Hsetup].
    intros p a Ha. by exists a.
Qed.

(** X10: an action object, once created, stays at its address and keeps its
    text, icon, default binding and connections whatever the registry is
    asked later; only its active binding can change. *)
Theorem objects_are_stable (app app' : Application.t) (p : ptr) (a : HAction) :
  rtc step app app' →
  objects app !! p = Some a →
  ∃ a', objects app' !! p = Some a'
    ∧ text a' = text a ∧ icon a' = icon a
    ∧ defaultShortcuts a' = defaultShortcuts a ∧ triggered a' = triggered a.
Proof.
  intros Hrtc. revert a. induction Hrtc as [app|app app1 app2 Hs _ IH]; intros a Ha.
  { by exists a. }
  destruct (keeps_objects_step _ _ Hs p a Ha) as (a1 & Ha1 & Hs1).
  destruct (IH a1 Ha1) as (a2 & Ha2 & Ht & Hi & Hd & Hc).
  exists a2. split; [done|]. unfold static in Hs1. injection Hs1 as H1 H2 H3 H4.
  rewrite Ht, Hi, Hd, Hc. done.
Qed.

(** ** Custom commands, by id *)

(** Ids the loop does not register keep their action. *)
Lemma liveAction_extended (n : string) app app' (ext : list HAction) :
  wf app →
  m_collection app' !! n = m_collection app !! n →
  objects app' = objects app ++ ext →
  liveAction n app' = liveAction n app.
Proof.
  intros [Hv _] Hc Ho. unfold liveAction. rewrite Hc, Ho.
  destruct (m_collection app !! n) as [p|] eqn:Hl; [|done].
  cbn [mbind option_bind]. apply lookup_app_l. by eapply Hv.
Qed.

(** The loop of [setupUserActions], read by id: a tagged group gives its id
    a new action with the group's command as text; any other id keeps what
    it had. *)
Lemma liveAction_setupUserGroups (l : list (string * KConfigGroup)) (n : string) app :
  wf app → NoDup l.*1 →
  liveAction n (foldl setupUserGroup app l)
  = match (list_to_map l : gmap string KConfigGroup) !! n with
    | Some grp =>
        if decide (readEntry "Type" grp = "shortcut")
        then Some (setText (readEntry "Command" grp) new_HAction)
        else liveAction n app
    | None => liveAction n app
    end.
Proof.
  intros Hwf Hnd.
  destruct (setupUserGroups_spec l app Hnd) as (Ho & Hn & Hf). cbn zeta in Ho, Hn, Hf.
  assert (∀ grp, (n, grp) ∈ l → readEntry "Type" grp ≠ "shortcut" →
            n ∉ (filter (λ g : string * KConfigGroup,
                           readEntry "Type" g.2 = "shortcut") l).*1) as Hnot.
  { intros grp Hin Ht ([n' grp'] & Heq & Hin')%list_elem_of_fmap. simpl in Heq. subst n'.
    apply list_elem_of_filter in Hin' as [Ht' Hin']. simpl in Ht'.
    by pose proof (NoDup_fmap_elem_inj fst _ _ _ Hnd Hin Hin' eq_refl) as [= ->]. }
  destruct (list_to_map l !! n) as [grp|] eqn:Hg.
  - apply elem_of_list_to_map in Hg; [|done].
    destruct (decide (readEntry "Type" grp = "shortcut")) as [Ht|Ht].
    + assert ((n, grp) ∈ filter (λ g : string * KConfigGroup,
                                   readEntry "Type" g.2 = "shortcut") l) as Hin.
      { by apply list_elem_of_filter. }
      apply list_elem_of_lookup in Hin as [i Hi].
      pose proof (Hn i _ Hi) as Hni. cbn [fst] in Hni.
      unfold liveAction. rewrite Hni. cbn [mbind option_bind].
      rewrite Ho, lookup_app_r, Nat.add_comm, Nat.add_sub by lia.
      by rewrite list_lookup_fmap, Hi.
    + eapply liveAction_extended; [done| |exact Ho]. apply Hf. by eapply Hnot.
  - eapply liveAction_extended; [done| |exact Ho]. apply Hf.
    apply not_elem_of_list_to_map in Hg.
    intros (x & Hx & Hin)%list_elem_of_fmap. apply list_elem_of_filter in Hin as [_ Hin].
    apply Hg. rewrite Hx. by apply list_elem_of_fmap_2.
Qed.

(** X11: the bulk load, read by id.  An id that names a group tagged
    ["shortcut"] gets a new action with the group's command as text, no icon
    and no default, bound as the store says; this also holds when the id was
    live before or is a catalog id.  Every other id keeps the action it had,
    merged with the store. *)
Theorem setupUserActions_by_id (n : string) (app : Application.t) :
  wf app →
  liveAction n (setupUserActions app)
  = match groups (customCommandsConfig app) !! n with
    | Some grp =>
        if decide (readEntry "Type" grp = "shortcut")
        then Some (mkHAction (readEntry "Command" grp) None
                             (default [] (m_shortcuts app !! n)) [] [])
        else mergeBinding app n <$> liveAction n app
    | None => mergeBinding app n <$> liveAction n app
    end.
Proof.
  intros Hwf. unfold setupUserActions.
  rewrite liveAction_readSettings by by apply wf_setupUserGroups.
  rewrite liveAction_setupUserGroups by (done || apply NoDup_fst_map_to_list).
  unfold groupList. rewrite list_to_map_to_list.
  assert (∀ a, mergeBinding (foldl setupUserGroup app
                               (map_to_list (groups (customCommandsConfig app)))) n a
               = mergeBinding app n a) as Hmb.
  { intros a. unfold mergeBinding. by rewrite setupUserGroups_shortcuts. }
  destruct (groups (customCommandsConfig app) !! n) as [grp|].
  - destruct (decide (readEntry "Type" grp = "shortcut")) as [Ht|Ht].
    + cbn [fmap option_fmap option_map]. by rewrite Hmb.
    + destruct (liveAction n app); cbn [fmap option_fmap option_map]; by rewrite ?Hmb.
  - destruct (liveAction n app); cbn [fmap option_fmap option_map]; by rewrite ?Hmb.
Qed.

(** X12: the order in which the groups are enumerated does not matter for
    the action an id ends up with. *)
Theorem setupUserGroups_order_irrelevant
    (l1 l2 : list (string * KConfigGroup)) (n : string) (app : Application.t) :
  wf app → NoDup l1.*1 → l1 ≡ₚ l2 →
  liveAction n (readSettings (foldl setupUserGroup app l1))
  = liveAction n (readSettings (foldl setupUserGroup app l2)).
Proof.
  intros Hwf Hnd Hp.
  assert (NoDup l2.*1) as Hnd2 by by rewrite <- Hp.
  rewrite !liveAction_readSettings by by apply wf_setupUserGroups.
  rewrite !liveAction_setupUserGroups by done.
  rewrite (list_to_map_proper l1 l2 Hnd Hp).
  unfold mergeBinding. by rewrite !setupUserGroups_shortcuts.
Qed.

(** X13: resolving the id of a loaded custom command returns the loaded
    object and changes nothing; the catalog is not consulted, even for an id
    the catalog has. *)
Theorem setupUserActions_then_action (g : string) (grp : KConfigGroup) (app : Application.t) :
  groups (customCommandsConfig app) !! g = Some grp →
  readEntry "Type" grp = "shortcut" →
  ∃ (p : ptr) (a : HAction),
    action g (setupUserActions app) = (Some p, setupUserActions app)
    ∧ length (objects app) ≤ p
    ∧ objects (setupUserActions app) !! p = Some a
    ∧ text a = readEntry "Command" grp.
Proof.
  intros Hg Ht.
  destruct (setupUserGroups_spec (groupList (customCommandsConfig app)) app)
    as (Ho & Hn & _); [apply NoDup_fst_map_to_list|]. cbn zeta in Ho, Hn.
  assert ((g, grp) ∈ filter (λ g : string * KConfigGroup, readEntry "Type" g.2 = "shortcut")
                       (groupList (customCommandsConfig app))) as Hin.
  { apply list_elem_of_filter. split; [done|]. by apply elem_of_map_to_list. }
  apply list_elem_of_lookup in Hin as [i Hi].
  destruct (keeps_objects_readSettings
              (foldl setupUserGroup app (groupList (customCommandsConfig app)))
              (length (objects app) + i)
              (setText (readEntry "Command" grp) new_HAction)) as (a & Ha & Hs).
  { rewrite Ho, lookup_app_r, Nat.add_comm, Nat.add_sub by lia.
    by rewrite list_lookup_fmap, Hi. }
  exists (length (objects app) + i), a. split_and!.
  - apply action_live. unfold setupUserActions. rewrite readSettings_collection.
    apply (Hn i _ Hi).
  - lia.
  - exact Ha.
  - unfold static in Hs. by injection Hs as -> _ _ _.
Qed.

(** X14: a custom command just created is what its id resolves to, and the
    resolution changes nothing; the command has no binding unless the store
    holds one for the generated id, and then it has that one. *)
Theorem createUserAction_then_action (txt : string) (app : Application.t) :
  wf app →
  action (userActionName app) (createUserAction txt app)
  = (Some (length (objects app)), createUserAction txt app)
  ∧ liveAction (userActionName app) (createUserAction txt app)
    = Some (mkHAction txt None (default [] (m_shortcuts app !! userActionName app)) [] []).
Proof.
  intros Hwf. unfold createUserAction. split.
  - apply action_live. by rewrite readSettings_collection, addAction_collection, lookup_insert_eq.
  - rewrite liveAction_readSettings by by apply wf_addAction.
    by rewrite liveAction_addAction_eq.
Qed.

(** ** The positional arguments *)

Lemma parser_loop_lookup (arguments : list string) (len start i : nat) (m : gmap nat string) :
  foldl (λ (m_args : gmap nat string) (i : nat),
           match arguments !! i with
           | Some value => <[i := value]> m_args
           | None => m_args
           end) m (seq start len) !! i
  = if decide (start ≤ i < start + len)
    then match arguments !! i with Some value => Some value | None => m !! i end
    else m !! i.
Proof.
  revert start m. induction len as [|len IH]; intros start m; simpl.
  { case_decide; [lia|done]. }
  rewrite IH. destruct (decide (i = start)) as [->|Hne].
  - rewrite decide_False, decide_True by lia.
    destruct (arguments !! start); [by rewrite lookup_insert_eq|done].
  - destruct (decide (S start ≤ i < S start + len)).
    + rewrite decide_True by lia.
      destruct (arguments !! i); [done|].
      destruct (arguments !! start); [by rewrite lookup_insert_ne|done].
    + rewrite decide_False by lia.
      destruct (arguments !! start); [by rewrite lookup_insert_ne|done].
Qed.

(** X15: after start-up the argument table holds the positional arguments
    of the command line under their positions, and nothing else. *)
Theorem m_args_are_positional_arguments (env : Environment) (i : nat) :
  m_args (Application_new env) !! i = positionalArguments env !! i.
Proof.
  unfold Application_new. cbn [m_args]. unfold setupCommandLineParser.
  rewrite parser_loop_lookup, lookup_empty.
  destruct (positionalArguments env !! i) as [v|] eqn:Hi.
  - rewrite decide_True; [done|]. apply lookup_lt_Some in Hi. lia.
  - by case_decide.
Qed.

(** ** Playlist paths *)

Lemma prefix_iff (s1 s2 : string) :
  String.prefix s1 s2 = true ↔ ∃ post, s2 = s1 +:+ post.
Proof.
  revert s1. induction s2 as [|b s2 IH]; intros [|a s1]; simpl.
  - split; [intros _; by exists ""|done].
  - split; [done|]. by intros [post ?].
  - split; [intros _; by exists (String b s2)|done].
  - destruct (Ascii.ascii_dec a b) as [->|Hne].
    + rewrite IH. split; intros [post Hp]; exists post; [by rewrite Hp|].
      by injection Hp.
    + split; [done|]. intros [post Hp]. injection Hp as Hab _. by symmetry in Hab.
Qed.

Lemma QString_contains_iff (str s : string) :
  QString_contains str s = true ↔ ∃ pre post, s = pre +:+ str +:+ post.
Proof.
  induction s as [|c s IH].
  - change (QString_contains str "") with (String.prefix str "" || false).
    rewrite orb_true_iff, prefix_iff. split.
    + intros [[post Hp]|?]; [|done]. by exists "", post.
    + intros (pre & post & Hp). left. exists post.
      destruct pre; [done|discriminate].
  - change (QString_contains str (String c s))
      with (String.prefix str (String c s) || QString_contains str s).
    rewrite orb_true_iff, prefix_iff, IH. split.
    + intros [[post Hp]|(pre & post & Hp)].
      * by exists "", post.
      * exists (String c pre), post. simpl. by rewrite Hp.
    + intros (pre & post & Hp). destruct pre as [|c' pre]; simpl in Hp.
      * left. by exists post.
      * right. exists pre, post. by injection Hp.
Qed.

(** X16: a path is taken for a playlist exactly when it contains the text
    [youtube.com/playlist?list] somewhere, in that exact spelling. *)
Theorem isYoutubePlaylist_iff (path : string) :
  isYoutubePlaylist path = true
  ↔ ∃ pre post, path = pre +:+ "youtube.com/playlist?list" +:+ post.
Proof. apply QString_contains_iff. Qed.

Example isYoutubePlaylist_playlist :
  isYoutubePlaylist "https://www.youtube.com/playlist?list=PL123" = true.
Proof. reflexivity. Qed.

Example isYoutubePlaylist_watch :
  isYoutubePlaylist "https://www.youtube.com/watch?v=abc&list=PL123" = false.
Proof. reflexivity. Qed.

Example isYoutubePlaylist_case :
  isYoutubePlaylist "https://www.YouTube.com/playlist?list=PL123" = false.
Proof. reflexivity. Qed.

(** ** The further statements at concrete applications *)

Lemma reachable_invariant_witness :
  wf (action "mute" (setupUserActions (init ∅ two_groups))).2
  ∧ merged (action "mute" (setupUserActions (init ∅ two_groups))).2.
Proof.
  apply reachable_invariant. apply reach_action.
  apply (reach_pass (init ∅ two_groups)); [apply reach_init|apply pass_setupUserActions].
Defined.

Lemma readSettings_idempotent_witness :
  readSettings (readSettings stale_app) = readSettings stale_app.
Proof. apply readSettings_idempotent. exact stale_app_wf. Defined.

Lemma action_unknown_noop_witness :
  action "noSuchAction" (setupUserActions (init ∅ two_groups))
  = (None, setupUserActions (init ∅ two_groups)).
Proof.
  apply action_unknown_noop.
  - apply (reach_pass (init ∅ two_groups)); [apply reach_init|apply pass_setupUserActions].
  - vm_compute. reflexivity.
  - apply (bool_decide_unpack _). vm_compute. exact I.
Defined.

Lemma action_creates_catalog_entry_witness :
  (action "screenshot" stale_app).1 = Some 1.
Proof.
  refine (proj1 (action_creates_catalog_entry
                   (entry "screenshot" "Screenshot" (Some "image-x-generic") Qt.Key_S None)
                   stale_app stale_app_wf _ _)).
  - apply (list_elem_of_lookup_2 _ 0). vm_compute. reflexivity.
  - reflexivity.
Defined.

Lemma action_is_Some_iff_witness : is_Some (action "mute" stale_app).1.
Proof.
  apply (proj2 (action_is_Some_iff "mute" stale_app)). right.
  apply (bool_decide_unpack _). vm_compute. exact I.
Defined.

Lemma action_allocation_witness :
  length (objects (action "mute" stale_app).2) = 2.
Proof.
  refine (proj1 (proj1 (action_allocation "mute" stale_app) _)). split.
  - reflexivity.
  - apply (bool_decide_unpack _). vm_compute. exact I.
Defined.

Lemma action_returns_live_object_witness :
  m_collection (action "mute" stale_app).2 !! "mute" = Some 1.
Proof.
  refine (proj1 (action_returns_live_object "mute" stale_app 1 stale_app_wf _)).
  vm_compute. reflexivity.
Defined.

Lemma live_set_only_grows_witness :
  dom (m_collection stale_app) ⊆ dom (m_collection (action "mute" stale_app).2).
Proof. apply live_set_only_grows. apply rtc_once. apply step_action. Defined.

Lemma stores_are_read_only_witness :
  m_shortcuts (createUserAction "seek 5" stale_app) = m_shortcuts stale_app.
Proof.
  refine (proj1 (stores_are_read_only stale_app (createUserAction "seek 5" stale_app) _)).
  apply rtc_once. apply step_pass. apply pass_createUserAction.
Defined.

Lemma objects_are_stable_witness :
  ∃ a', objects (action "mute" stale_app).2 !! 0 = Some a' ∧ text a' = "mpv command".
Proof.
  destruct (objects_are_stable stale_app (action "mute" stale_app).2 0
              (mkHAction "mpv command" None [Qt.Key_P] [] []))
    as (a' & Ha' & Ht & _).
  - apply rtc_once. apply step_action.
  - reflexivity.
  - exists a'. split; [exact Ha'|exact Ht].
Defined.

Lemma setupUserActions_by_id_witness :
  liveAction "Command_0" (setupUserActions (init ∅ two_groups))
  = Some (mkHAction "cycle pause" None [] [] []).
Proof.
  rewrite (setupUserActions_by_id "Command_0" (init ∅ two_groups) (wf_init ∅ two_groups)).
  vm_compute. reflexivity.
Defined.

Lemma setupUserGroups_order_irrelevant_witness :
  liveAction "b"
    (readSettings (foldl setupUserGroup stale_app
                     [("a", {["Type" := "shortcut"]}); ("b", {["Type" := "shortcut"]})]))
  = liveAction "b"
      (readSettings (foldl setupUserGroup stale_app
                       [("b", {["Type" := "shortcut"]}); ("a", {["Type" := "shortcut"]})])).
Proof.
  apply setupUserGroups_order_irrelevant.
  - exact stale_app_wf.
  - apply (bool_decide_unpack _). vm_compute. exact I.
  - apply perm_swap.
Defined.

Lemma setupUserActions_then_action_witness :
  ∃ (p : ptr) (a : HAction),
    action "Command_0" (setupUserActions (init ∅ two_groups))
    = (Some p, setupUserActions (init ∅ two_groups))
    ∧ 0 ≤ p
    ∧ objects (setupUserActions (init ∅ two_groups)) !! p = Some a
    ∧ text a = "cycle pause".
Proof.
  destruct (setupUserActions_then_action "Command_0"
              (<["Command" := "cycle pause"]> (<["Type" := "shortcut"]> ∅))
              (init ∅ two_groups))
    as (p & a & Hact & _ & Hobj & Htext).
  - vm_compute. reflexivity.
  - vm_compute. reflexivity.
  - exists p, a. split_and!; [exact Hact|lia|exact Hobj|exact Htext].
Defined.

Lemma createUserAction_then_action_witness :
  action "Command_0" (createUserAction "seek 5" stale_app)
  = (Some 1, createUserAction "seek 5" stale_app).
Proof. exact (proj1 (createUserAction_then_action "seek 5" stale_app stale_app_wf)). Defined.

Lemma isYoutubePlaylist_iff_witness :
  isYoutubePlaylist "https://www.youtube.com/playlist?list=PL123" = true.
Proof.
  apply (proj2 (isYoutubePlaylist_iff _)). exists "https://www.", "=PL123". reflexivity.
Defined.
